(** * whisperx-replicate: the segment planner and the language detector

    A shallow embedding of [predict.py].  Integers are [Z] (Python integers
    are unbounded), language probabilities are binary64 floats, Python lists
    are [list], exceptions are the [Err] side of [res], and the effects of the
    detector (temporary files, printed lines, calls into the speech library)
    are threaded through an explicit [World]. *)

From Stdlib Require Import ZArith Lia.
From Stdlib Require Import Floats.PrimFloat.
From Equations Require Import Equations.
From stdpp Require Import base list gmap strings numbers.

Set Warnings "-inexact-float".
Open Scope Z_scope.

(** ** Exceptions *)

(** The calls into pydub / whisperx that the module makes.  Each of them can
    raise; the module catches nothing. *)
Inductive ExternalCall :=
| CallAudioLength      (* AudioSegment.from_file in get_audio_duration *)
| CallLoadModel        (* whisperx.load_model *)
| CallSlice            (* AudioSegment.from_file and slicing in extract_audio_segment *)
| CallExport           (* extracted_segment.export *)
| CallLoadAudio        (* whisperx.load_audio *)
| CallInference        (* log_mel_spectrogram, encode, detect_language *)
| CallTranscribe       (* model.transcribe *)
| CallAlign            (* whisperx.load_align_model, whisperx.align *)
| CallDiarize.         (* whisperx.DiarizationPipeline, assign_word_speakers *)

Inductive PyError :=
| IndexError
| FileNotFoundError
| ExternalError (c : ExternalCall).

Inductive res (A : Type) :=
| Ok (a : A)
| Err (e : PyError).
Arguments Ok {A} a.
Arguments Err {A} e.

Definition is_ok {A} (r : res A) : bool :=
  match r with Ok _ => true | Err _ => false end.

(** ** Python lists *)

Module Py.

(** [range(n)]: empty when [n <= 0]. *)
Definition range (n : Z) : list Z := Z.of_nat <$> seq 0 (Z.to_nat n).

(** Index normalisation of [l[i]]: a negative index counts from the end. *)
Definition norm_index {A} (l : list A) (i : Z) : Z :=
  if i <? 0 then i + Z.of_nat (length l) else i.

(** [l[i]], raising IndexError out of range. *)
Definition getitem {A} (l : list A) (i : Z) : res A :=
  let j := norm_index l i in
  if j <? 0 then Err IndexError
  else match l !! Z.to_nat j with
       | Some x => Ok x
       | None => Err IndexError
       end.

(** [l[i] = v], raising IndexError out of range. *)
Definition setitem {A} (l : list A) (i : Z) (v : A) : res (list A) :=
  let j := norm_index l i in
  if (0 <=? j) && (j <? Z.of_nat (length l))
  then Ok (<[Z.to_nat j := v]> l)
  else Err IndexError.

End Py.

(** ** Segment planner *)

Definition distribute_segments_equally
    (total_duration segments_duration iterations : Z) : res (list Z) :=
  let available_duration := total_duration - segments_duration in
  let spacing :=
    if 1 <? iterations then available_duration / (iterations - 1) else 0 in
  let start_times := (fun i => i * spacing) <$> Py.range iterations in
  if 1 <? iterations
  then Py.setitem start_times (-1) (total_duration - segments_duration)
  else Ok start_times.

(** The offsets are non-decreasing: an earlier position never holds a larger
    offset than a later one. *)
Definition non_decreasing (l : list Z) : Prop :=
  ∀ (i j : nat) (x y : Z), (i ≤ j)%nat → l !! i = Some x → l !! j = Some y → x ≤ y.

(** The plan in the words of the specification: the offsets [i * spacing]
    for [i] below [n]. *)
Definition spaced (spacing n : Z) : list Z := (λ i, i * spacing) <$> Py.range n.

(** ** The world outside the module *)

(** A path with its suffix split off, as [pathlib] sees it. *)
Record Path := { path_stem : string; path_suffix : string }.

(** A file made by [tempfile.NamedTemporaryFile(delete=False, suffix=...)]. *)
Record TempPath := { tmp_name : nat; tmp_suffix : string }.

(** What a run does that can be seen from outside, in the order it happens. *)
Inductive Event :=
| EvLoadModel (iteration : Z)          (* the detector builds its model *)
| EvTempFile (p : TempPath)            (* a temporary file is created *)
| EvUnlink (p : TempPath)              (* a temporary file is deleted *)
| EvIteration (iteration : Z) (language : string) (probability : float)
| EvSegmentsStarts (starts : list Z)
| EvDetected (language : string) (probability : float) (iterations : Z)
| EvTranscribe (language : option string)
| EvAlign
| EvDiarize.

(** The temporary directory maps the name of every temporary file that
    exists to its suffix. *)
Record World := { tmpdir : gmap nat string; trace : list Event }.

(** State and exceptions: an exception keeps the effects made before it. *)
Definition M (A : Type) : Type := World → res A * World.

Definition ret {A} (a : A) : M A := λ w, (Ok a, w).
Definition raise {A} (e : PyError) : M A := λ w, (Err e, w).
Definition bind {A B} (m : M A) (k : A → M B) : M B :=
  λ w, match m w with
       | (Ok a, w') => k a w'
       | (Err e, w') => (Err e, w')
       end.
#[global] Instance M_ret : MRet M := @ret.
#[global] Instance M_bind : MBind M := λ A B k m, bind m k.

Definition lift {A} (r : res A) : M A := λ w, (r, w).
Definition emit (e : Event) : M unit :=
  λ w, (Ok tt, {| tmpdir := tmpdir w; trace := trace w ++ [e] |}).

(** A call into a library that returns nothing the model looks at. *)
Definition external (c : ExternalCall) (succeeds : bool) : M unit :=
  if succeeds then ret tt else raise (ExternalError c).

(** A call into a library whose value the model uses. *)
Definition external_value {A} (c : ExternalCall) (v : option A) : M A :=
  match v with Some a => ret a | None => raise (ExternalError c) end.

(** [NamedTemporaryFile] picks a name that no existing file has. *)
Definition named_temporary_file (suffix : string) : M TempPath :=
  λ w, let p := {| tmp_name := fresh (dom (tmpdir w)); tmp_suffix := suffix |} in
       (Ok p, {| tmpdir := <[tmp_name p := suffix]> (tmpdir w);
                 trace := trace w ++ [EvTempFile p] |}).

Definition unlink (p : TempPath) : M unit :=
  λ w, match tmpdir w !! tmp_name p with
       | Some _ => (Ok tt, {| tmpdir := delete (tmp_name p) (tmpdir w);
                              trace := trace w ++ [EvUnlink p] |})
       | None => (Err FileNotFoundError, w)
       end.

(** What the libraries do with one detection window, from slicing the audio
    to the language identification. *)
Inductive Outcome :=
| SliceRaises          (* reading or slicing the input fails: no file yet *)
| ExportRaises         (* export fails: the temporary file exists *)
| LoadAudioRaises      (* decoding the temporary file fails *)
| InferenceRaises      (* spectrogram, encoder or language head fails *)
| Detected (language : string) (probability : float).

Definition slices (o : Outcome) : bool :=
  match o with SliceRaises => false | _ => true end.
Definition exports (o : Outcome) : bool :=
  match o with ExportRaises => false | _ => true end.
Definition decodes (o : Outcome) : bool :=
  match o with LoadAudioRaises => false | _ => true end.

(** The transcription result: the [result] dictionary of [predict]. *)
Record Transcription (Segments : Type) :=
  { result_segments : Segments; result_language : string }.
Arguments result_segments {Segments} _.
Arguments result_language {Segments} _.

Record ModelOutput (Segments : Type) :=
  { segments : Segments; detected_language : string }.
Arguments segments {Segments} _.
Arguments detected_language {Segments} _.

(** The behaviour of pydub and whisperx in one run.  Detection windows are
    indexed by the iteration and the start offset; [None] and [false] stand
    for a call that raises. *)
Record Env (Segments : Type) := {
  audio_length : Path → option N;
  detector_model_loads : Z → bool;
  window : Z → Z → Outcome;
  asr_model_loads : option string → bool;
  audio_loads : Path → bool;
  transcribe : Path → option string → option (Transcription Segments);
  DEFAULT_ALIGN_MODELS_TORCH : gmap string string;
  DEFAULT_ALIGN_MODELS_HF : gmap string string;
  whisperx_align : Transcription Segments → option (Transcription Segments);
  whisperx_diarize : Transcription Segments → option (Transcription Segments)
}.
Arguments audio_length {Segments} _ _.
Arguments detector_model_loads {Segments} _ _.
Arguments window {Segments} _ _ _.
Arguments asr_model_loads {Segments} _ _.
Arguments audio_loads {Segments} _ _.
Arguments transcribe {Segments} _ _ _.
Arguments DEFAULT_ALIGN_MODELS_TORCH {Segments} _.
Arguments DEFAULT_ALIGN_MODELS_HF {Segments} _.
Arguments whisperx_align {Segments} _ _.
Arguments whisperx_diarize {Segments} _ _.

(** ** Language detector *)

Record DetectionResult :=
  { language : string; probability : float; iterations : Z }.

(** [a >= b] on floats. *)
Definition ge_float (a b : float) : bool := PrimFloat.leb b a.

Section Program.
Context {Segments : Type}.
Variable env : Env Segments.

Definition get_audio_duration (file_path : Path) : M Z :=
  n ← external_value CallAudioLength (audio_length env file_path);
  ret (Z.of_N n).

(** [o] is what the libraries do with this window. *)
Definition extract_audio_segment (o : Outcome) (input_file_path : Path)
    (start_time_ms duration_ms : Z) : M TempPath :=
  external CallSlice (slices o);;
  let file_extension := path_suffix input_file_path in
  temp_file_path ← named_temporary_file file_extension;
  external CallExport (exports o);;
  ret temp_file_path.

Section Detector.
Variable full_audio_file_path : Path.
Variable segments_starts : list Z.
Variable language_detection_min_prob : float.
Variable language_detection_max_tries : Z.

(** Lines 179-203: one window, up to the printed line. *)
Definition detect_window (iteration : Z) : M (string * float) :=
  emit (EvLoadModel iteration);;
  external CallLoadModel (detector_model_loads env iteration);;
  start_ms ← lift (Py.getitem segments_starts (iteration - 1));
  let o := window env iteration start_ms in
  audio_segment_file_path ←
    extract_audio_segment o full_audio_file_path start_ms 30000;
  external CallLoadAudio (decodes o);;
  unlink audio_segment_file_path;;
  match o with
  | Detected language language_probability =>
      emit (EvIteration iteration language language_probability);;
      ret (language, language_probability)
  | _ => raise (ExternalError CallInference)
  end.

(** The test of line 205. *)
Definition accepts (language_probability : float) (iteration : Z) : bool :=
  ge_float language_probability language_detection_min_prob
  || (language_detection_max_tries <=? iteration).

(** Lines 205-213.  The recursive call is made only below the bound, so
    the distance to the bound decreases. *)
Equations? detect_language (iteration : Z) : M DetectionResult
  by wf (Z.to_nat (language_detection_max_tries - iteration)) lt :=
detect_language iteration :=
  r ← detect_window iteration;
  match Sumbool.sumbool_of_bool (accepts r.2 iteration) with
  | left _ =>
      ret {| language := r.1; probability := r.2; iterations := iteration |}
  | right _ => detect_language (iteration + 1)
  end.
Proof.
  match goal with
  | H : accepts _ _ = false |- _ =>
      unfold accepts in H; apply orb_false_elim in H as [_ H]
  end.
  lia.
Qed.
End Detector.

(** ** Prediction *)

Definition align (result : Transcription Segments) : M (Transcription Segments) :=
  emit EvAlign;;
  external_value CallAlign (whisperx_align env result).

Definition diarize (result : Transcription Segments) : M (Transcription Segments) :=
  emit EvDiarize;;
  external_value CallDiarize (whisperx_diarize env result).

(** The language has an alignment model (line 158). *)
Definition has_align_model (detected_language : string) : bool :=
  bool_decide (detected_language ∈ dom (DEFAULT_ALIGN_MODELS_TORCH env))
  || bool_decide (detected_language ∈ dom (DEFAULT_ALIGN_MODELS_HF env)).

(** Lines 106-109: the number of tries, at most the number of whole
    segments in the audio.  [audio_duration / segments_duration_ms] is a
    true division followed by [math.floor]; for the non-negative integers
    below 2^53 that is the floor division written here. *)
Definition clamped_tries
    (language_detection_max_tries audio_duration segments_duration_ms : Z) : Z :=
  Z.min language_detection_max_tries (audio_duration / segments_duration_ms).

(** Lines 102-126. *)
Definition resolve_language (audio_file : Path) (language : option string)
    (language_detection_min_prob : float) (language_detection_max_tries : Z)
    : M (option string) :=
  match language with
  | None =>
      audio_duration ← get_audio_duration audio_file;
      let segments_duration_ms := 30000 in
      let language_detection_max_tries :=
        clamped_tries language_detection_max_tries audio_duration
          segments_duration_ms in
      segments_starts ←
        lift (distribute_segments_equally audio_duration segments_duration_ms
                language_detection_max_tries);
      emit (EvSegmentsStarts segments_starts);;
      detected_language_details ←
        detect_language audio_file segments_starts language_detection_min_prob
          language_detection_max_tries 1;
      let '{| language := detected_language_code;
              probability := detected_language_prob;
              iterations := detected_language_iterations |} :=
        detected_language_details in
      emit (EvDetected detected_language_code detected_language_prob
              detected_language_iterations);;
      ret (Some detected_language_code)
  | Some _ => ret language
  end.

(** Lines 130-147. *)
Definition run_transcription (audio_file : Path) (language : option string)
    : M (Transcription Segments) :=
  external CallLoadModel (asr_model_loads env language);;
  external CallLoadAudio (audio_loads env audio_file);;
  emit (EvTranscribe language);;
  external_value CallTranscribe (transcribe env audio_file language).

(** Lines 158-162. *)
Definition post_process (align_output diarization : bool)
    (result : Transcription Segments) : M (Transcription Segments) :=
  if has_align_model (result_language result) then
    if align_output then align result
    else if diarization then diarize result
    else ret result
  else ret result.

(** [debug] and the options handed on to the libraries unread (prompt,
    temperature, batch size, VAD thresholds, speaker bounds, token) change
    nothing that is modelled and are left out. *)
Definition predict (audio_file : Path) (language : option string)
    (language_detection_min_prob : float) (language_detection_max_tries : Z)
    (align_output diarization : bool) : M (ModelOutput Segments) :=
  language ← resolve_language audio_file language
               language_detection_min_prob language_detection_max_tries;
  result ← run_transcription audio_file language;
  let detected_language := result_language result in
  result ← post_process align_output diarization result;
  ret {| segments := result_segments result;
         detected_language := detected_language |}.

End Program.

(** ** Reading a trace *)

(** The windows whose language was identified, in order. *)
Definition evaluated (tr : list Event) : list (Z * (string * float)) :=
  omap (λ e, match e with
             | EvIteration k l p => Some (k, (l, p))
             | _ => None
             end) tr.

(** The iterations at which [detect_language] was entered, in order. *)
Definition entered (tr : list Event) : list Z :=
  omap (λ e, match e with EvLoadModel k => Some k | _ => None end) tr.

(** The activations of [detect_language]: each one starts by building its
    model, and each is nested in the one before, so their number is the depth
    the recursion reaches. *)
Definition activations (tr : list Event) : nat := length (entered tr).

(** The temporary files a trace creates, in order. *)
Definition created (tr : list Event) : list TempPath :=
  omap (λ e, match e with EvTempFile p => Some p | _ => None end) tr.

(** The alignment and diarization stages a trace runs, in order. *)
Definition post_stages (tr : list Event) : list Event :=
  omap (λ e, match e with
             | EvAlign => Some EvAlign
             | EvDiarize => Some EvDiarize
             | _ => None
             end) tr.

(** The temporary files a trace deletes, in order. *)
Definition unlinked (tr : list Event) : list TempPath :=
  omap (λ e, match e with EvUnlink p => Some p | _ => None end) tr.

(** The exceptions raised between the creation of a temporary file and its
    deletion. *)
Definition leaves_file (e : PyError) : bool :=
  match e with
  | ExternalError CallExport | ExternalError CallLoadAudio => true
  | _ => false
  end.

(** ** Set-up: the cache of the voice-activity model *)

Module Setup.

(** A path is its components, innermost first: "models/vad" is
    ["vad"; "models"], its parent directory is the tail of the list, and
    joining a name onto it is a cons. *)
Inductive Node :=
| Dir
| File (content : string).

#[global] Instance Node_eq_dec : EqDecision Node.
Proof. solve_decision. Defined.

Inductive OSError :=
| FileExistsError
| FileNotFoundError
| NotADirectoryError
| IsADirectoryError
| SameFileError.

#[global] Instance OSError_eq_dec : EqDecision OSError.
Proof. solve_decision. Defined.

(** What is at a path.  The current directory (the empty path), "." and ".."
    are directories whatever the map holds. *)
Definition node (fs : gmap (list string) Node) (p : list string) : option Node :=
  match p with
  | [] => Some Dir
  | [c] => if decide (c = "." ∨ c = "..") then Some Dir else fs !! p
  | _ => fs !! p
  end.

(** [os.path.exists] and [os.path.isdir]. *)
Definition path_exists (fs : gmap (list string) Node) (p : list string) : bool :=
  bool_decide (is_Some (node fs p)).

Definition isdir (fs : gmap (list string) Node) (p : list string) : bool :=
  bool_decide (node fs p = Some Dir).

(** [os.path.join(folder, name)]. *)
Definition join (folder : list string) (name : string) : list string :=
  name :: folder.

(** [os.mkdir]: the path must be new and its parent a directory. *)
Definition mkdir (p : list string) (fs : gmap (list string) Node)
    : option OSError * gmap (list string) Node :=
  match node fs p with
  | Some _ => (Some FileExistsError, fs)
  | None =>
      match node fs (tail p) with
      | Some Dir => (None, <[p := Dir]> fs)
      | Some (File _) => (Some NotADirectoryError, fs)
      | None => (Some FileNotFoundError, fs)
      end
  end.

(** The last step of [os.makedirs]: [mkdir], whose exception is dropped when
    [exist_ok] is set and the path is a directory. *)
Definition mkdir_exist_ok (exist_ok : bool) (name : list string)
    (fs : gmap (list string) Node) : option OSError * gmap (list string) Node :=
  match mkdir name fs with
  | (Some e, fs') =>
      if negb exist_ok || negb (isdir fs' name) then (Some e, fs') else (None, fs')
  | done => done
  end.

(** [os.makedirs(name, exist_ok=exist_ok)]: the parent is made first when it
    does not exist (a FileExistsError of that call is passed over), and a
    path that ends in "." is complete once its parent is made. *)
Fixpoint makedirs (name : list string) (exist_ok : bool)
    (fs : gmap (list string) Node) : option OSError * gmap (list string) Node :=
  match name with
  | [] => (Some FileNotFoundError, fs)
  | tail :: head =>
      if negb (bool_decide (head = [])) && negb (path_exists fs head) then
        match makedirs head exist_ok fs with
        | (Some e, fs') =>
            if decide (e = FileExistsError)
            then if decide (tail = ".") then (None, fs')
                 else mkdir_exist_ok exist_ok name fs'
            else (Some e, fs')
        | (None, fs') =>
            if decide (tail = ".") then (None, fs')
            else mkdir_exist_ok exist_ok name fs'
        end
      else mkdir_exist_ok exist_ok name fs
  end.

(** [shutil.copy(src, dst)]: into [dst] when it is a directory, under the
    name of [src]; the contents of a file that is there are replaced. *)
Definition copy (src dst : list string) (fs : gmap (list string) Node)
    : option OSError * gmap (list string) Node :=
  let dst := if isdir fs dst then join dst (hd "" src) else dst in
  match node fs src with
  | None => (Some FileNotFoundError, fs)
  | Some Dir => (Some IsADirectoryError, fs)
  | Some (File content) =>
      if decide (src = dst) then (Some SameFileError, fs)
      else match node fs dst with
           | Some Dir => (Some IsADirectoryError, fs)
           | _ =>
               match node fs (tail dst) with
               | Some Dir => (None, <[dst := File content]> fs)
               | Some (File _) => (Some NotADirectoryError, fs)
               | None => (Some FileNotFoundError, fs)
               end
           end
  end.

Definition source_folder : list string := ["vad"; "models"; "."].
Definition destination_folder : list string := ["torch"; ".cache"; "root"; ".."].
Definition file_name : string := "whisperx-vad-segmentation.bin".

(** [Predictor.setup], lines 26-38. *)
Definition setup (fs : gmap (list string) Node)
    : option OSError * gmap (list string) Node :=
  match makedirs destination_folder true fs with
  | (Some e, fs) => (Some e, fs)
  | (None, fs) =>
      let source_file_path := join source_folder file_name in
      if path_exists fs source_file_path then
        let destination_file_path := join destination_folder file_name in
        if negb (path_exists fs destination_file_path) then
          copy source_file_path destination_folder fs
        else (None, fs)
      else (None, fs)
  end.

(** [fs'] is [fs] with some directories added, all of them on the way to
    [name]. *)
Definition adds_dirs_towards (name : list string)
    (fs fs' : gmap (list string) Node) : Prop :=
  ∀ q, fs' !! q = fs !! q
       ∨ (node fs q = None ∧ fs' !! q = Some Dir ∧ q `suffix_of` name).

(** A checkout with the model file and nothing else. *)
Definition fresh_checkout : gmap (list string) Node :=
  {[ ["models"; "."] := Dir;
     ["vad"; "models"; "."] := Dir;
     join source_folder file_name := File "weights" ]}.

(** The same checkout with a regular file where the cache directory goes. *)
Definition blocked_checkout : gmap (list string) Node :=
  <[destination_folder := File "not a directory"]> fresh_checkout.

End Setup.

(** ** Concrete runs *)

Definition empty_world : World := {| tmpdir := ∅; trace := [] |}.

Definition clip : Path := {| path_stem := "clip"; path_suffix := ".mp3" |}.

(** Three windows: "en" at 0.3, "en" at 0.6, then "fr" at 0.9. *)
Definition three_pairs (k : Z) : string * float :=
  if k =? 1 then ("en", 0.3%float)
  else if k =? 2 then ("en", 0.6%float)
  else ("fr", 0.9%float).

(** Libraries that never raise, with the given windows and audio length; the
    transcription keeps the language it is given and English has an alignment
    model. *)
Definition calm_env (windows : Z → Z → Outcome) (length_ms : N)
    : Env (list string) :=
  {| audio_length := λ _, Some length_ms;
     detector_model_loads := λ _, true;
     window := windows;
     asr_model_loads := λ _, true;
     audio_loads := λ _, true;
     transcribe := λ _ l,
       Some {| result_segments := ["hello"]; result_language := default "en" l |};
     DEFAULT_ALIGN_MODELS_TORCH := {[ "en" := "WAV2VEC2_ASR_BASE_960H" ]};
     DEFAULT_ALIGN_MODELS_HF := ∅;
     whisperx_align := λ r,
       Some {| result_segments := "aligned" :: result_segments r;
               result_language := result_language r |};
     whisperx_diarize := λ r,
       Some {| result_segments := "diarized" :: result_segments r;
               result_language := result_language r |} |}.

Definition three_windows_env : Env (list string) :=
  calm_env (λ k _, Detected (three_pairs k).1 (three_pairs k).2) 100000.

(** Half a second of audio. *)
Definition short_clip_env : Env (list string) :=
  calm_env (λ k _, Detected (three_pairs k).1 (three_pairs k).2) 500.

(** The decoding of every slice fails. *)
Definition undecodable_env : Env (list string) :=
  calm_env (λ _ _, LoadAudioRaises) 100000.

(** Alignment raises; everything else is as in [three_windows_env]. *)
Definition align_fails_env : Env (list string) :=
  {| audio_length := audio_length three_windows_env;
     detector_model_loads := detector_model_loads three_windows_env;
     window := window three_windows_env;
     asr_model_loads := asr_model_loads three_windows_env;
     audio_loads := audio_loads three_windows_env;
     transcribe := transcribe three_windows_env;
     DEFAULT_ALIGN_MODELS_TORCH := DEFAULT_ALIGN_MODELS_TORCH three_windows_env;
     DEFAULT_ALIGN_MODELS_HF := DEFAULT_ALIGN_MODELS_HF three_windows_env;
     whisperx_align := λ _, None;
     whisperx_diarize := whisperx_diarize three_windows_env |}.

(** * Properties *)

(** ** Python lists *)

Lemma range_length (n : Z) : length (Py.range n) = Z.to_nat n.
Proof. unfold Py.range. rewrite length_fmap, length_seq. reflexivity. Qed.

Lemma range_lookup (n : Z) (i : nat) :
  (i < Z.to_nat n)%nat → Py.range n !! i = Some (Z.of_nat i).
Proof.
  intros Hi. unfold Py.range.
  rewrite list_lookup_fmap, lookup_seq_lt by assumption. reflexivity.
Qed.

Lemma range_succ (n : Z) : 0 ≤ n → Py.range (n + 1) = Py.range n ++ [n].
Proof.
  intros Hn. unfold Py.range.
  replace (Z.to_nat (n + 1)) with (Z.to_nat n + 1)%nat by lia.
  rewrite seq_app, fmap_app. simpl. f_equal. f_equal. lia.
Qed.

Lemma range_pred (n : Z) : 1 ≤ n → Py.range n = Py.range (n - 1) ++ [n - 1].
Proof.
  intros Hn. rewrite <- range_succ by lia. f_equal. lia.
Qed.

Lemma setitem_last {A} (l : list A) (x v : A) :
  Py.setitem (l ++ [x]) (-1) v = Ok (l ++ [v]).
Proof.
  unfold Py.setitem, Py.norm_index. rewrite length_app. simpl.
  replace (-1 <? 0) with true by reflexivity.
  replace ((0 <=? -1 + Z.of_nat (length l + 1)) &&
           (-1 + Z.of_nat (length l + 1) <? Z.of_nat (length l + 1))) with true
    by (symmetry; apply andb_true_intro; split; [apply Z.leb_le | apply Z.ltb_lt]; lia).
  f_equal.
  replace (Z.to_nat (-1 + Z.of_nat (length l + 1))) with (length l + 0)%nat by lia.
  rewrite insert_app_r. reflexivity.
Qed.

Lemma getitem_nil {A} (i : Z) : Py.getitem ([] : list A) i = Err IndexError.
Proof.
  unfold Py.getitem, Py.norm_index. simpl.
  destruct (i <? 0); destruct (_ <? 0); reflexivity.
Qed.

Lemma getitem_error {A} (l : list A) (i : Z) (e : PyError) :
  Py.getitem l i = Err e → e = IndexError.
Proof.
  unfold Py.getitem. destruct (_ <? 0); [congruence|].
  destruct (l !! _); congruence.
Qed.

Lemma getitem_lookup {A} (l : list A) (i : Z) (x : A) :
  0 ≤ i → l !! Z.to_nat i = Some x → Py.getitem l i = Ok x.
Proof.
  intros Hi Hx. unfold Py.getitem, Py.norm_index.
  replace (i <? 0) with false by (symmetry; apply Z.ltb_ge; lia).
  replace (i <? 0) with false by (symmetry; apply Z.ltb_ge; lia).
  rewrite Hx. reflexivity.
Qed.

Lemma getitem_beyond {A} (l : list A) (i : Z) :
  Z.of_nat (length l) ≤ i → Py.getitem l i = Err IndexError.
Proof.
  intros Hi. unfold Py.getitem, Py.norm_index.
  replace (i <? 0) with false by (symmetry; apply Z.ltb_ge; lia).
  replace (i <? 0) with false by (symmetry; apply Z.ltb_ge; lia).
  rewrite lookup_ge_None_2 by lia. reflexivity.
Qed.

Lemma seqZ_one (m : Z) : seqZ m 1 = [m].
Proof. rewrite seqZ_cons by lia. reflexivity. Qed.

Lemma seqZ_first (m : Z) (n : nat) :
  seqZ m (Z.of_nat (S n)) = m :: seqZ (m + 1) (Z.of_nat n).
Proof.
  rewrite seqZ_cons by lia.
  replace (Z.succ m) with (m + 1) by lia.
  replace (Z.pred (Z.of_nat (S n))) with (Z.of_nat n) by lia.
  reflexivity.
Qed.

(** ** Reading a trace *)

Lemma entered_app (tr1 tr2 : list Event) :
  entered (tr1 ++ tr2) = entered tr1 ++ entered tr2.
Proof. apply omap_app. Qed.

Lemma evaluated_app (tr1 tr2 : list Event) :
  evaluated (tr1 ++ tr2) = evaluated tr1 ++ evaluated tr2.
Proof. apply omap_app. Qed.

Lemma created_app (tr1 tr2 : list Event) :
  created (tr1 ++ tr2) = created tr1 ++ created tr2.
Proof. apply omap_app. Qed.

Lemma unlinked_app (tr1 tr2 : list Event) :
  unlinked (tr1 ++ tr2) = unlinked tr1 ++ unlinked tr2.
Proof. apply omap_app. Qed.

Lemma post_stages_app (tr1 tr2 : list Event) :
  post_stages (tr1 ++ tr2) = post_stages tr1 ++ post_stages tr2.
Proof. apply omap_app. Qed.

Lemma activations_app (tr1 tr2 : list Event) :
  activations (tr1 ++ tr2) = (activations tr1 + activations tr2)%nat.
Proof. unfold activations. rewrite entered_app. apply length_app. Qed.

(** ** Segment planner *)

Lemma spaced_length (spacing n : Z) : length (spaced spacing n) = Z.to_nat n.
Proof. unfold spaced. rewrite length_fmap. apply range_length. Qed.

Lemma spaced_lookup (spacing n : Z) (i : nat) (x : Z) :
  spaced spacing n !! i = Some x → (i < Z.to_nat n)%nat ∧ x = Z.of_nat i * spacing.
Proof.
  intros Hx. assert (Hi : (i < Z.to_nat n)%nat).
  { apply lookup_lt_Some in Hx. rewrite spaced_length in Hx. exact Hx. }
  split; [exact Hi|]. unfold spaced in Hx.
  rewrite list_lookup_fmap, range_lookup in Hx by exact Hi.
  simpl in Hx. congruence.
Qed.

(** With more than one iteration the plan is the spaced offsets of all
    iterations but the last, followed by the forced final offset. *)
Lemma plan_many (total seg n : Z) :
  1 < n →
  distribute_segments_equally total seg n
  = Ok (spaced ((total - seg) / (n - 1)) (n - 1) ++ [total - seg]).
Proof.
  intros Hn. unfold distribute_segments_equally.
  replace (1 <? n) with true by (symmetry; apply Z.ltb_lt; lia).
  rewrite (range_pred n), fmap_app by lia. simpl.
  apply setitem_last.
Qed.

Lemma plan_one (total seg : Z) : distribute_segments_equally total seg 1 = Ok [0].
Proof. reflexivity. Qed.

Lemma plan_none (total seg n : Z) :
  n ≤ 0 → distribute_segments_equally total seg n = Ok [].
Proof.
  intros Hn. unfold distribute_segments_equally.
  replace (1 <? n) with false by (symmetry; apply Z.ltb_ge; lia).
  unfold Py.range. replace (Z.to_nat n) with 0%nat by lia. reflexivity.
Qed.

(** The planner never raises, and returns as many offsets as asked for. *)
Lemma plan_total (total seg n : Z) :
  ∃ l, distribute_segments_equally total seg n = Ok l ∧ length l = Z.to_nat n.
Proof.
  destruct (Z_lt_le_dec 1 n) as [Hn|Hn].
  - eexists. split; [apply plan_many; exact Hn|].
    rewrite length_app, spaced_length. simpl. lia.
  - destruct (Z.eq_dec n 1) as [->|Hn1].
    + eexists. split; [apply plan_one|reflexivity].
    + eexists. split; [apply plan_none; lia|]. simpl. lia.
Qed.

Lemma spacing_bounds (a n : Z) (i : nat) :
  0 ≤ a → 1 < n → (i < Z.to_nat (n - 1))%nat →
  0 ≤ Z.of_nat i * (a / (n - 1)) ≤ a.
Proof.
  intros Ha Hn Hi.
  assert (Hq : 0 ≤ a / (n - 1)) by (apply Z.div_pos; lia).
  assert (Hm : (n - 1) * (a / (n - 1)) ≤ a) by (apply Z.mul_div_le; lia).
  split; [apply Z.mul_nonneg_nonneg; lia|].
  transitivity ((n - 1) * (a / (n - 1))); [|exact Hm].
  apply Z.mul_le_mono_nonneg_r; lia.
Qed.

Lemma spaced_in_span (a n : Z) :
  0 ≤ a → 1 < n → Forall (λ x, 0 ≤ x ≤ a) (spaced (a / (n - 1)) (n - 1)).
Proof.
  intros Ha Hn. apply Forall_lookup_2. intros i x Hx.
  apply spaced_lookup in Hx as [Hi ->]. apply spacing_bounds; assumption.
Qed.

Lemma spaced_zero (n : Z) : spaced 0 n = replicate (Z.to_nat n) 0.
Proof.
  apply list_eq. intros i. destruct (decide (i < Z.to_nat n)%nat) as [Hi|Hi].
  - unfold spaced. rewrite list_lookup_fmap, range_lookup by exact Hi.
    rewrite lookup_replicate_2 by exact Hi. simpl. f_equal. lia.
  - rewrite !lookup_ge_None_2; [reflexivity| |].
    + rewrite length_replicate. lia.
    + rewrite spaced_length. lia.
Qed.

Lemma plan_non_decreasing (a n : Z) :
  0 ≤ a → 1 < n → non_decreasing (spaced (a / (n - 1)) (n - 1) ++ [a]).
Proof.
  intros Ha Hn i j x y Hij Hx Hy.
  assert (Hq : 0 ≤ a / (n - 1)) by (apply Z.div_pos; lia).
  assert (Hlen := spaced_length (a / (n - 1)) (n - 1)).
  apply lookup_app_Some in Hy as [Hy|[Hj Hy]].
  - apply spaced_lookup in Hy as [Hj ->].
    rewrite lookup_app_l in Hx by lia.
    apply spaced_lookup in Hx as [_ ->].
    apply Z.mul_le_mono_nonneg_r; lia.
  - assert (y = a) as ->.
    { destruct (j - _)%nat; simpl in Hy; [congruence|discriminate]. }
    apply lookup_app_Some in Hx as [Hx|[Hi Hx]].
    + apply spaced_lookup in Hx as [Hi ->]. apply spacing_bounds; assumption.
    + destruct (i - _)%nat; simpl in Hx; [injection Hx; lia|discriminate].
Qed.

(** C2.  When the audio is at least one segment long, a plan of one iteration
    is exactly [0], and a plan of more than one iteration ends at
    [total_duration_ms - segment_duration_ms] with every offset between 0 and
    that final offset. *)
Theorem planner_single_and_end_aligned (total_duration_ms segment_duration_ms : Z) :
  segment_duration_ms ≤ total_duration_ms →
  distribute_segments_equally total_duration_ms segment_duration_ms 1 = Ok [0]
  ∧ ∀ iterations, 1 < iterations →
      ∃ plan,
        distribute_segments_equally total_duration_ms segment_duration_ms iterations
        = Ok plan
        ∧ list.last plan = Some (total_duration_ms - segment_duration_ms)
        ∧ Forall (λ x, 0 ≤ x ≤ total_duration_ms - segment_duration_ms) plan.
Proof.
  intros Hlen. split; [apply plan_one|].
  intros n Hn. eexists. split; [apply plan_many; exact Hn|]. split.
  - apply last_snoc.
  - apply Forall_app. split.
    + apply spaced_in_span; lia.
    + apply Forall_singleton. lia.
Qed.

Lemma planner_single_and_end_aligned_witness :
  30000 ≤ 100000
  ∧ distribute_segments_equally 100000 30000 1 = Ok [0]
  ∧ ∃ plan, distribute_segments_equally 100000 30000 4 = Ok plan
            ∧ list.last plan = Some 70000
            ∧ Forall (λ x, 0 ≤ x ≤ 70000) plan.
Proof.
  assert (H : 30000 ≤ 100000) by lia.
  split; [exact H|].
  split.
  - exact (proj1 (planner_single_and_end_aligned 100000 30000 H)).
  - exact (proj2 (planner_single_and_end_aligned 100000 30000 H) 4 eq_refl).
Defined.

(** C3.  With more than one iteration the planner takes the floor of the
    available span over [iterations - 1] as spacing, produces the offsets
    [i * spacing] and overwrites the last of them with
    [total_duration_ms - segment_duration_ms]: the plan has [iterations]
    offsets, offset [i] is [i * spacing] below the last position, and the last
    position holds the forced offset.  In particular the plan of 100000 ms in
    segments of 30000 ms with 3 iterations is [0, 35000, 70000]. *)
Theorem planner_spacing_and_forced_end :
  (∀ total_duration_ms segment_duration_ms iterations, 1 < iterations →
     let spacing := (total_duration_ms - segment_duration_ms) / (iterations - 1) in
     ∃ plan,
       distribute_segments_equally total_duration_ms segment_duration_ms iterations
       = Ok plan
       ∧ plan = <[Z.to_nat (iterations - 1) := total_duration_ms - segment_duration_ms]>
                  (spaced spacing iterations)
       ∧ length plan = Z.to_nat iterations
       ∧ (∀ i : nat, Z.of_nat i < iterations - 1 →
            plan !! i = Some (Z.of_nat i * spacing))
       ∧ plan !! Z.to_nat (iterations - 1)
         = Some (total_duration_ms - segment_duration_ms))
  ∧ distribute_segments_equally 100000 30000 3 = Ok [0; 35000; 70000].
Proof.
  split; [|reflexivity].
  intros total seg n Hn spacing. eexists. split; [apply plan_many; exact Hn|].
  fold spacing.
  assert (Hlen := spaced_length spacing (n - 1)).
  split; [|split; [|split]].
  - assert (Hs : spaced spacing n = spaced spacing (n - 1) ++ [(n - 1) * spacing]).
    { unfold spaced. rewrite (range_pred n), fmap_app by lia. reflexivity. }
    rewrite Hs.
    replace (Z.to_nat (n - 1)) with (length (spaced spacing (n - 1)) + 0)%nat by lia.
    rewrite insert_app_r. reflexivity.
  - rewrite length_app. simpl. lia.
  - intros i Hi. rewrite lookup_app_l by lia.
    unfold spaced. rewrite list_lookup_fmap, range_lookup by lia. reflexivity.
  - rewrite lookup_app_r by lia.
    replace (Z.to_nat (n - 1) - length (spaced spacing (n - 1)))%nat with 0%nat by lia.
    reflexivity.
Qed.

Lemma planner_spacing_and_forced_end_witness :
  1 < 3
  ∧ ∃ plan, distribute_segments_equally 100000 30000 3 = Ok plan
            ∧ plan !! 1%nat = Some 35000
            ∧ plan !! 2%nat = Some 70000.
Proof.
  assert (H : 1 < 3) by lia.
  split; [exact H|].
  destruct (proj1 planner_spacing_and_forced_end 100000 30000 3 H)
    as (plan & Hplan & _ & _ & Hi & Hlast).
  exists plan. split; [exact Hplan|]. split.
  - exact (Hi 1%nat eq_refl).
  - exact Hlast.
Defined.

(** C5.  When the audio is at least one segment long and at least one
    iteration is asked for, the planner returns (it does not raise) exactly
    [iterations] offsets, none of them negative, in non-decreasing order.  A
    spacing that floors to 0 is no error: the plan is then 0 repeated, followed
    by the forced final offset. *)
Theorem planner_invariants (total_duration_ms segment_duration_ms iterations : Z) :
  segment_duration_ms ≤ total_duration_ms → 1 ≤ iterations →
  ∃ plan,
    distribute_segments_equally total_duration_ms segment_duration_ms iterations
    = Ok plan
    ∧ Z.of_nat (length plan) = iterations
    ∧ Forall (λ x, 0 ≤ x) plan
    ∧ non_decreasing plan
    ∧ (1 < iterations →
       (total_duration_ms - segment_duration_ms) / (iterations - 1) = 0 →
       plan = replicate (Z.to_nat (iterations - 1)) 0
              ++ [total_duration_ms - segment_duration_ms]).
Proof.
  intros Hlen Hn. destruct (Z.eq_dec iterations 1) as [->|Hn1].
  - exists [0]. split; [apply plan_one|]. split; [reflexivity|].
    split; [apply Forall_singleton; lia|]. split; [|lia].
    intros i j x y _ Hx Hy.
    apply list_lookup_singleton_Some in Hx as [_ <-].
    apply list_lookup_singleton_Some in Hy as [_ <-]. lia.
  - assert (Hgt : 1 < iterations) by lia.
    eexists. split; [apply plan_many; exact Hgt|].
    split; [|split; [|split]].
    + rewrite length_app, spaced_length. simpl. lia.
    + apply Forall_app. split.
      * apply Forall_lookup_2. intros i x Hx.
        apply spaced_lookup in Hx as [Hi ->].
        apply spacing_bounds; [lia|exact Hgt|exact Hi].
      * apply Forall_singleton. lia.
    + apply plan_non_decreasing; lia.
    + intros _ Hzero. rewrite Hzero, spaced_zero. reflexivity.
Qed.

Lemma planner_invariants_witness :
  30000 ≤ 30001 ∧ 1 ≤ 3
  ∧ ∃ plan, distribute_segments_equally 30001 30000 3 = Ok plan
            ∧ Z.of_nat (length plan) = 3
            ∧ Forall (λ x, 0 ≤ x) plan
            ∧ non_decreasing plan
            ∧ (1 < 3 → (30001 - 30000) / (3 - 1) = 0 →
               plan = replicate (Z.to_nat (3 - 1)) 0 ++ [30001 - 30000]).
Proof.
  assert (H1 : 30000 ≤ 30001) by lia.
  assert (H2 : 1 ≤ 3) by lia.
  split; [exact H1|]. split; [exact H2|].
  exact (planner_invariants 30001 30000 3 H1 H2).
Defined.

Example plan_100000_30000_1 :
  distribute_segments_equally 100000 30000 1 = Ok [0].
Proof. reflexivity. Qed.

Example plan_duplicates :
  distribute_segments_equally 30001 30000 3 = Ok [0; 0; 1].
Proof. reflexivity. Qed.

(** ** Language detector: one window *)

Lemma fresh_temp_absent (w : World) : tmpdir w !! fresh (dom (tmpdir w)) = None.
Proof. apply not_elem_of_dom, is_fresh. Qed.

Ltac run_monad :=
  unfold mbind, M_bind, bind, mret, M_ret, ret, raise, lift, emit, external,
    external_value, named_temporary_file, unlink; simpl.

Section DetectorFacts.
Context {Segments : Type} (env : Env Segments).
Variable full_audio_file_path : Path.
Variable segments_starts : list Z.
Variable language_detection_min_prob : float.
Variable language_detection_max_tries : Z.

Local Abbreviation detect_window' := (detect_window env full_audio_file_path segments_starts).
Local Abbreviation accepts' := (accepts language_detection_min_prob language_detection_max_tries).
Local Abbreviation detect_language' :=
  (detect_language env full_audio_file_path segments_starts
     language_detection_min_prob language_detection_max_tries).

(** Everything one window does, by what the libraries do with it. *)
Lemma detect_window_run (iteration : Z) (w : World) :
  let p := {| tmp_name := fresh (dom (tmpdir w));
              tmp_suffix := path_suffix full_audio_file_path |} in
  let clean evs := {| tmpdir := tmpdir w; trace := trace w ++ evs |} in
  let left_behind evs :=
    {| tmpdir := <[tmp_name p := tmp_suffix p]> (tmpdir w);
       trace := trace w ++ evs |} in
  detect_window' iteration w =
    if detector_model_loads env iteration then
      match Py.getitem segments_starts (iteration - 1) with
      | Err e => (Err e, clean [EvLoadModel iteration])
      | Ok start_ms =>
          match window env iteration start_ms with
          | SliceRaises =>
              (Err (ExternalError CallSlice), clean [EvLoadModel iteration])
          | ExportRaises =>
              (Err (ExternalError CallExport),
               left_behind [EvLoadModel iteration; EvTempFile p])
          | LoadAudioRaises =>
              (Err (ExternalError CallLoadAudio),
               left_behind [EvLoadModel iteration; EvTempFile p])
          | InferenceRaises =>
              (Err (ExternalError CallInference),
               clean [EvLoadModel iteration; EvTempFile p; EvUnlink p])
          | Detected language probability =>
              (Ok (language, probability),
               clean [EvLoadModel iteration; EvTempFile p; EvUnlink p;
                      EvIteration iteration language probability])
          end
      end
    else (Err (ExternalError CallLoadModel), clean [EvLoadModel iteration]).
Proof.
  intros p clean left_behind. subst p clean left_behind.
  unfold detect_window, extract_audio_segment. run_monad.
  destruct (detector_model_loads env iteration); simpl; [|reflexivity].
  destruct (Py.getitem segments_starts (iteration - 1)) as [start_ms|e];
    simpl; [|reflexivity].
  destruct (window env iteration start_ms); simpl;
    rewrite <- ?app_assoc; simpl; try reflexivity.
  all: rewrite lookup_insert_eq; simpl.
  all: rewrite delete_insert_id by apply fresh_temp_absent.
  all: rewrite <- ?app_assoc; reflexivity.
Qed.

(** What one window leaves in the trace and in the temporary directory. *)
Lemma detect_window_effects (iteration : Z) (w w' : World) (r : res (string * float)) :
  detect_window' iteration w = (r, w') →
  ∃ evs,
    trace w' = trace w ++ evs
    ∧ entered evs = [iteration]
    ∧ evaluated evs = match r with Ok lp => [(iteration, lp)] | Err _ => [] end
    ∧ Forall (λ p, tmp_suffix p = path_suffix full_audio_file_path) (created evs)
    ∧ match r with
      | Ok _ =>
          tmpdir w' = tmpdir w ∧ unlinked evs = created evs
          ∧ length (created evs) = 1%nat
      | Err e =>
          if leaves_file e
          then ∃ p, created evs = [p] ∧ unlinked evs = []
                    ∧ tmpdir w !! tmp_name p = None
                    ∧ tmpdir w' = <[tmp_name p := tmp_suffix p]> (tmpdir w)
          else tmpdir w' = tmpdir w ∧ unlinked evs = created evs
               ∧ (length (created evs) ≤ 1)%nat
      end.
Proof.
  rewrite detect_window_run.
  destruct (detector_model_loads env iteration).
  - destruct (Py.getitem segments_starts (iteration - 1)) as [start_ms|e] eqn:Hget.
    + destruct (window env iteration start_ms);
        intros [= <- <-]; eexists; (split; [reflexivity|]); simpl;
        repeat split; auto using fresh_temp_absent.
      all: eexists; repeat split; auto; apply fresh_temp_absent.
    + apply getitem_error in Hget as ->.
      intros [= <- <-]; eexists; (split; [reflexivity|]); simpl;
        repeat split; auto.
  - intros [= <- <-]; eexists; (split; [reflexivity|]); simpl;
      repeat split; auto.
Qed.

(** The recursion of [detect_language], one step unfolded. *)
Lemma detect_language_step (iteration : Z) (w : World) :
  detect_language' iteration w =
    match detect_window' iteration w with
    | (Ok (language, probability), w') =>
        if accepts' probability iteration
        then (Ok {| language := language; probability := probability;
                    iterations := iteration |}, w')
        else detect_language' (iteration + 1) w'
    | (Err e, w') => (Err e, w')
    end.
Proof.
  rewrite detect_language_equation_1. unfold mbind, M_bind, bind.
  destruct (detect_window' iteration w) as [[[l p]|e] w']; [|reflexivity].
  simpl. destruct (Sumbool.sumbool_of_bool (accepts' p iteration)) as [H|H];
    rewrite H; reflexivity.
Qed.

Lemma rejected_below_bound (probability : float) (iteration : Z) :
  accepts' probability iteration = false →
  ge_float probability language_detection_min_prob = false
  ∧ iteration < language_detection_max_tries.
Proof.
  unfold accepts. intros [H1 H2]%orb_false_elim.
  split; [exact H1|]. apply Z.leb_gt. exact H2.
Qed.

(** Induction over a run of the detector: a property of all runs holds as
    soon as it holds of a run that ends in its first window, by an
    exception or by acceptance, and is carried from the run that starts at
    the next iteration over a rejected window. *)
Lemma detect_language_run_ind
    (P : Z → World → res DetectionResult * World → Prop) :
  (∀ i w e w', detect_window' i w = (Err e, w') → P i w (Err e, w')) →
  (∀ i w l p w',
     detect_window' i w = (Ok (l, p), w') → accepts' p i = true →
     P i w (Ok {| language := l; probability := p; iterations := i |}, w')) →
  (∀ i w l p w',
     detect_window' i w = (Ok (l, p), w') → accepts' p i = false →
     i < language_detection_max_tries →
     P (i + 1) w' (detect_language' (i + 1) w') →
     P i w (detect_language' (i + 1) w')) →
  ∀ i w, P i w (detect_language' i w).
Proof.
  intros Hraise Haccept Hreject i.
  remember (Z.to_nat (language_detection_max_tries - i)) as n eqn:Hn.
  revert i Hn. induction n as [n IH] using lt_wf_ind. intros i Hn w.
  rewrite detect_language_step.
  destruct (detect_window' i w) as [[[l p]|e] w'] eqn:Hw.
  - destruct (accepts' p i) eqn:Hacc.
    + apply Haccept; assumption.
    + pose proof (rejected_below_bound _ _ Hacc) as [_ Hlt].
      eapply Hreject; [eassumption|assumption|assumption|].
      eapply IH; [|reflexivity]. lia.
  - apply Hraise; assumption.
Qed.

(** ** Language detector: whole runs *)

(** A run that starts at [i] enters the iterations [i, i+1, ..., i+n] and
    no other, stays within the bound when it starts within it, and returns
    the last iteration it entered. *)
Lemma run_depth (i : Z) (w : World) :
  ∃ evs (n : nat),
    trace (detect_language' i w).2 = trace w ++ evs
    ∧ entered evs = seqZ i (Z.of_nat (S n))
    ∧ (i ≤ language_detection_max_tries →
       i + Z.of_nat n ≤ language_detection_max_tries)
    ∧ (∀ d, (detect_language' i w).1 = Ok d → iterations d = i + Z.of_nat n)
    ∧ (length (evaluated evs) ≤ S n)%nat.
Proof.
  revert i w.
  apply (detect_language_run_ind (λ i w out,
    ∃ evs (n : nat),
      trace out.2 = trace w ++ evs
      ∧ entered evs = seqZ i (Z.of_nat (S n))
      ∧ (i ≤ language_detection_max_tries →
         i + Z.of_nat n ≤ language_detection_max_tries)
      ∧ (∀ d, out.1 = Ok d → iterations d = i + Z.of_nat n)
      ∧ (length (evaluated evs) ≤ S n)%nat)).
  - intros i w e w' Hw.
    apply detect_window_effects in Hw as (evs & Htr & Hent & Hev & _).
    exists evs, 0%nat. simpl. rewrite Hent, Hev, seqZ_one.
    repeat split; [exact Htr|lia|discriminate|simpl; lia].
  - intros i w l p w' Hw _.
    apply detect_window_effects in Hw as (evs & Htr & Hent & Hev & _).
    exists evs, 0%nat. simpl. rewrite Hent, Hev, seqZ_one.
    repeat split; [exact Htr|lia| |simpl; lia].
    intros d [= <-]. simpl. lia.
  - intros i w l p w' Hw _ Hlt (evs2 & n & Htr2 & Hent2 & Hbound & Hres & Hev2).
    apply detect_window_effects in Hw as (evs1 & Htr1 & Hent1 & Hev1 & _).
    exists (evs1 ++ evs2), (S n).
    rewrite entered_app, evaluated_app, Hent1, Hent2, Hev1, length_app.
    split; [rewrite Htr2, Htr1, app_assoc; reflexivity|].
    split; [rewrite (seqZ_first i (S n)); reflexivity|].
    split; [lia|]. split; [|simpl; lia].
    intros d Hd. rewrite (Hres d Hd). lia.
Qed.

(** Every temporary file of a run has the suffix of the input and every
    window creates at most one.  A run that returns, or that fails outside
    the export and the decoding of a slice, has deleted every file it
    created and leaves the temporary directory as it found it; a run that
    fails in the export or the decoding leaves the file of that window. *)
Lemma run_cleanup (i : Z) (w : World) :
  ∃ evs,
    trace (detect_language' i w).2 = trace w ++ evs
    ∧ Forall (λ p, tmp_suffix p = path_suffix full_audio_file_path) (created evs)
    ∧ (length (created evs) ≤ activations evs)%nat
    ∧ match (detect_language' i w).1 with
      | Ok _ =>
          tmpdir (detect_language' i w).2 = tmpdir w
          ∧ unlinked evs = created evs
          ∧ length (created evs) = activations evs
      | Err e =>
          if leaves_file e
          then ∃ p, created evs = unlinked evs ++ [p]
                    ∧ tmpdir w !! tmp_name p = None
                    ∧ tmpdir (detect_language' i w).2
                      = <[tmp_name p := tmp_suffix p]> (tmpdir w)
          else tmpdir (detect_language' i w).2 = tmpdir w
               ∧ unlinked evs = created evs
      end.
Proof.
  revert i w.
  apply (detect_language_run_ind (λ i w out,
    ∃ evs,
      trace out.2 = trace w ++ evs
      ∧ Forall (λ p, tmp_suffix p = path_suffix full_audio_file_path) (created evs)
      ∧ (length (created evs) ≤ activations evs)%nat
      ∧ match out.1 with
        | Ok _ =>
            tmpdir out.2 = tmpdir w ∧ unlinked evs = created evs
            ∧ length (created evs) = activations evs
        | Err e =>
            if leaves_file e
            then ∃ p, created evs = unlinked evs ++ [p]
                      ∧ tmpdir w !! tmp_name p = None
                      ∧ tmpdir out.2 = <[tmp_name p := tmp_suffix p]> (tmpdir w)
            else tmpdir out.2 = tmpdir w ∧ unlinked evs = created evs
        end)).
  - intros i w e w' Hw.
    apply detect_window_effects in Hw as (evs & Htr & Hent & _ & Hsuf & Hdir).
    exists evs. unfold activations. rewrite Hent. simpl.
    split; [exact Htr|]. split; [exact Hsuf|].
    destruct (leaves_file e).
    + destruct Hdir as (p & Hc & Hu & Hfresh & Hdir). rewrite Hc, Hu. simpl.
      split; [lia|]. exists p. repeat split; auto.
    + destruct Hdir as (Hdir & Hu & Hlen). repeat split; auto.
  - intros i w l p w' Hw _.
    apply detect_window_effects in Hw as (evs & Htr & Hent & _ & Hsuf & Hdir & Hu & Hlen).
    exists evs. unfold activations. rewrite Hent, Hlen. simpl. repeat split; auto.
  - intros i w l p w' Hw _ _ (evs2 & Htr2 & Hsuf2 & Hlen2 & Hout).
    apply detect_window_effects in Hw
      as (evs1 & Htr1 & Hent1 & _ & Hsuf1 & Hdir1 & Hu1 & Hlen1).
    exists (evs1 ++ evs2).
    rewrite created_app, unlinked_app, activations_app, length_app, Hu1, Hlen1.
    replace (activations evs1) with 1%nat by (unfold activations; rewrite Hent1; reflexivity).
    split; [rewrite Htr2, Htr1, app_assoc; reflexivity|].
    split; [apply Forall_app; split; assumption|].
    split; [lia|].
    destruct (detect_language' (i + 1) w').1 as [d|e].
    + destruct Hout as (Hdir & Hu & Hlen). rewrite Hdir, Hu, Hlen. repeat split; auto.
    + destruct (leaves_file e).
      * destruct Hout as (q & Hc & Hfresh & Hdir). exists q.
        rewrite Hc, Hdir, <- Hdir1, app_assoc. repeat split; auto.
      * destruct Hout as (Hdir & Hu). rewrite Hdir, Hu. repeat split; auto.
Qed.

(** When every window within the bound is identified, the run returns the
    first window that meets the acceptance rule and has evaluated exactly
    the windows up to it, in order. *)
Section FirstAccepted.
Variable pairs : Z → string * float.
Hypothesis enough_offsets :
  language_detection_max_tries ≤ Z.of_nat (length segments_starts).
Hypothesis models_load :
  ∀ k, 1 ≤ k ≤ language_detection_max_tries → detector_model_loads env k = true.
Hypothesis windows_detected :
  ∀ k s, 1 ≤ k ≤ language_detection_max_tries →
         segments_starts !! Z.to_nat (k - 1) = Some s →
         window env k s = Detected (pairs k).1 (pairs k).2.

Lemma window_detected (i : Z) (w w' : World) (r : res (string * float)) :
  1 ≤ i ≤ language_detection_max_tries →
  detect_window' i w = (r, w') → r = Ok (pairs i).
Proof.
  intros Hi. rewrite detect_window_run, models_load by exact Hi.
  destruct (lookup_lt_is_Some_2 segments_starts (Z.to_nat (i - 1))) as [s Hs];
    [lia|].
  rewrite (getitem_lookup _ _ s), (windows_detected i s) by (assumption || lia).
  intros [= <- _]. destruct (pairs i); reflexivity.
Qed.

Lemma run_first_accepted (i : Z) (w : World) :
  1 ≤ i ≤ language_detection_max_tries →
  ∃ k,
    i ≤ k ≤ language_detection_max_tries
    ∧ accepts' (pairs k).2 k = true
    ∧ (∀ j, i ≤ j < k → accepts' (pairs j).2 j = false)
    ∧ (detect_language' i w).1
      = Ok {| language := (pairs k).1; probability := (pairs k).2;
              iterations := k |}
    ∧ ∃ evs,
        trace (detect_language' i w).2 = trace w ++ evs
        ∧ evaluated evs = (λ j, (j, pairs j)) <$> seqZ i (k - i + 1).
Proof.
  revert i w.
  apply (detect_language_run_ind (λ i w out,
    1 ≤ i ≤ language_detection_max_tries →
    ∃ k,
      i ≤ k ≤ language_detection_max_tries
      ∧ accepts' (pairs k).2 k = true
      ∧ (∀ j, i ≤ j < k → accepts' (pairs j).2 j = false)
      ∧ out.1 = Ok {| language := (pairs k).1; probability := (pairs k).2;
                      iterations := k |}
      ∧ ∃ evs,
          trace out.2 = trace w ++ evs
          ∧ evaluated evs = (λ j, (j, pairs j)) <$> seqZ i (k - i + 1))).
  - intros i w e w' Hw Hi.
    apply (window_detected i w w' (Err e) Hi) in Hw. discriminate.
  - intros i w l p w' Hw Hacc Hi.
    pose proof (window_detected i w w' _ Hi Hw) as [= Hp].
    apply detect_window_effects in Hw as (evs & Htr & _ & Hev & _).
    exists i. rewrite <- Hp. simpl.
    split; [lia|]. split; [exact Hacc|]. split; [intros j Hj; lia|].
    split; [reflexivity|]. exists evs. split; [exact Htr|].
    rewrite Hev. replace (i - i + 1) with 1 by lia. rewrite seqZ_one.
    simpl. rewrite <- Hp. reflexivity.
  - intros i w l p w' Hw Hacc Hlt IH Hi.
    pose proof (window_detected i w w' _ Hi Hw) as [= Hp].
    apply detect_window_effects in Hw as (evs1 & Htr1 & _ & Hev1 & _).
    destruct IH as (k & Hk & Hstop & Hbefore & Hres & evs2 & Htr2 & Hev2); [lia|].
    exists k. split; [lia|]. split; [exact Hstop|]. split.
    { intros j Hj. destruct (Z.eq_dec j i) as [->|Hne].
      - rewrite <- Hp. exact Hacc.
      - apply Hbefore. lia. }
    split; [exact Hres|]. exists (evs1 ++ evs2).
    split; [rewrite Htr2, Htr1, app_assoc; reflexivity|].
    rewrite evaluated_app, Hev1, Hev2, Hp.
    rewrite (seqZ_cons i) by lia.
    replace (Z.succ i) with (i + 1) by lia.
    replace (Z.pred (k - i + 1)) with (k - (i + 1) + 1) by lia.
    reflexivity.
Qed.
End FirstAccepted.

End DetectorFacts.

(** ** Language detector: the claims *)

(** C1.  With at least [max_iterations] offsets, [max_iterations >= 1] and
    windows that are all identified ([pairs k] at iteration [k]), the detector
    evaluates the windows 1, 2, ... in order and returns at the first
    iteration [k] whose probability is at least [min_probability] or that
    reaches [max_iterations]; the result is the pair of that last evaluated
    window with [k], whatever the earlier windows gave. *)
Theorem detector_first_good_enough_else_last {Segments : Type}
    (env : Env Segments) (audio : Path) (offsets : list Z)
    (min_probability : float) (max_iterations : Z)
    (pairs : Z → string * float) (w : World) :
  1 ≤ max_iterations →
  max_iterations ≤ Z.of_nat (length offsets) →
  (∀ k, 1 ≤ k ≤ max_iterations → detector_model_loads env k = true) →
  (∀ k s, 1 ≤ k ≤ max_iterations → offsets !! Z.to_nat (k - 1) = Some s →
          window env k s = Detected (pairs k).1 (pairs k).2) →
  let out := detect_language env audio offsets min_probability max_iterations 1 w in
  ∃ k,
    1 ≤ k ≤ max_iterations
    ∧ (ge_float (pairs k).2 min_probability = true ∨ max_iterations ≤ k)
    ∧ (∀ j, 1 ≤ j < k →
         ge_float (pairs j).2 min_probability = false ∧ j < max_iterations)
    ∧ out.1 = Ok {| language := (pairs k).1; probability := (pairs k).2;
                    iterations := k |}
    ∧ ∃ evs, trace out.2 = trace w ++ evs
             ∧ evaluated evs = (λ j, (j, pairs j)) <$> seqZ 1 k.
Proof.
  intros Hmax Hlen Hload Hwin out. subst out.
  destruct (run_first_accepted env audio offsets min_probability max_iterations
              pairs Hlen Hload Hwin 1 w) as (k & Hk & Hstop & Hbefore & Hres & Hev);
    [lia|].
  exists k. split; [exact Hk|]. split.
  { unfold accepts in Hstop. apply orb_true_iff in Hstop as [H|H].
    - left. exact H.
    - right. apply Z.leb_le. exact H. }
  split.
  { intros j Hj. apply (rejected_below_bound min_probability), Hbefore, Hj. }
  split; [exact Hres|].
  replace (k - 1 + 1) with k in Hev by lia. exact Hev.
Qed.

Lemma detector_first_good_enough_else_last_witness :
  ∃ k,
    1 ≤ k ≤ 3
    ∧ (ge_float (three_pairs k).2 0.5 = true ∨ 3 ≤ k)
    ∧ (∀ j, 1 ≤ j < k → ge_float (three_pairs j).2 0.5 = false ∧ j < 3)
    ∧ (detect_language three_windows_env clip [0; 35000; 70000] 0.5 3 1
         empty_world).1
      = Ok {| language := (three_pairs k).1; probability := (three_pairs k).2;
              iterations := k |}
    ∧ ∃ evs,
        trace (detect_language three_windows_env clip [0; 35000; 70000] 0.5 3 1
                 empty_world).2 = trace empty_world ++ evs
        ∧ evaluated evs = (λ j, (j, three_pairs j)) <$> seqZ 1 k.
Proof.
  apply (detector_first_good_enough_else_last three_windows_env clip
           [0; 35000; 70000] 0.5 3 three_pairs empty_world).
  - lia.
  - simpl. lia.
  - intros k _. reflexivity.
  - intros k s _ _. reflexivity.
Defined.

(** The policy is not best-of-N: a rejected window with a higher probability
    than the last one is not returned. *)
Example detector_keeps_no_maximum :
  (detect_language
     (calm_env (λ k _, if k =? 1 then Detected "en" 0.9 else Detected "fr" 0.2)
        100000)
     clip [0; 70000] 0.95 2 1 empty_world).1
  = Ok {| language := "fr"; probability := 0.2; iterations := 2 |}.
Proof. vm_compute. reflexivity. Qed.

Section Stepping.
Context {Segments : Type} (env : Env Segments).
Variables (audio : Path) (offsets : list Z).
Variables (min_probability : float) (max_iterations : Z).

(** A window that is identified: its events and its value. *)
Lemma window_identified (i s : Z) (l : string) (p : float) (w : World) :
  detector_model_loads env i = true → 1 ≤ i →
  offsets !! Z.to_nat (i - 1) = Some s →
  window env i s = Detected l p →
  let f := {| tmp_name := fresh (dom (tmpdir w));
              tmp_suffix := path_suffix audio |} in
  detect_window env audio offsets i w
  = (Ok (l, p),
     {| tmpdir := tmpdir w;
        trace := trace w ++ [EvLoadModel i; EvTempFile f; EvUnlink f;
                             EvIteration i l p] |}).
Proof.
  intros Hload Hi Hs Hwin f. subst f.
  rewrite detect_window_run, Hload, (getitem_lookup _ _ s), Hwin by (assumption || lia).
  reflexivity.
Qed.

Lemma detect_language_accept (i : Z) (l : string) (p : float) (w w' : World) :
  detect_window env audio offsets i w = (Ok (l, p), w') →
  accepts min_probability max_iterations p i = true →
  detect_language env audio offsets min_probability max_iterations i w
  = (Ok {| language := l; probability := p; iterations := i |}, w').
Proof. intros Hw Hacc. rewrite detect_language_step, Hw, Hacc. reflexivity. Qed.

Lemma detect_language_reject (i : Z) (l : string) (p : float) (w w' : World) :
  detect_window env audio offsets i w = (Ok (l, p), w') →
  accepts min_probability max_iterations p i = false →
  detect_language env audio offsets min_probability max_iterations i w
  = detect_language env audio offsets min_probability max_iterations (i + 1) w'.
Proof. intros Hw Hacc. rewrite detect_language_step, Hw, Hacc. reflexivity. Qed.

End Stepping.

(** C4.  With windows that give ("en", 0.3), ("en", 0.6), ("fr", 0.9): for
    [min_probability = 0.5] and [max_iterations = 5] the detector returns
    ("en", 0.6) with 2 iterations and never enters iteration 3; for
    [min_probability = 0.95] and [max_iterations = 3] it goes through the
    three iterations and returns ("fr", 0.9) with 3 iterations. *)
Theorem detector_three_windows {Segments : Type}
    (env : Env Segments) (audio : Path) (offsets : list Z) (w : World) :
  (∀ k, 1 ≤ k ≤ 3 → detector_model_loads env k = true) →
  (∀ s, window env 1 s = Detected "en" 0.3) →
  (∀ s, window env 2 s = Detected "en" 0.6) →
  (∀ s, window env 3 s = Detected "fr" 0.9) →
  ((2 ≤ length offsets)%nat →
   let out := detect_language env audio offsets 0.5 5 1 w in
   out.1 = Ok {| language := "en"; probability := 0.6; iterations := 2 |}
   ∧ ∃ evs, trace out.2 = trace w ++ evs
            ∧ entered evs = [1; 2]
            ∧ evaluated evs = [(1, ("en", 0.3%float)); (2, ("en", 0.6%float))])
  ∧ ((3 ≤ length offsets)%nat →
     let out := detect_language env audio offsets 0.95 3 1 w in
     out.1 = Ok {| language := "fr"; probability := 0.9; iterations := 3 |}
     ∧ ∃ evs, trace out.2 = trace w ++ evs
              ∧ entered evs = [1; 2; 3]
              ∧ evaluated evs = [(1, ("en", 0.3%float)); (2, ("en", 0.6%float));
                                 (3, ("fr", 0.9%float))]).
Proof.
  intros Hload H1 H2 H3. split.
  - intros Hlen out. subst out.
    destruct offsets as [|s1 [|s2 rest]]; simpl in Hlen; try lia.
    erewrite detect_language_reject;
      [|apply (window_identified env audio _ 1 s1 "en" 0.3);
        [apply Hload; lia|lia|reflexivity|apply H1]
       |reflexivity].
    erewrite detect_language_accept;
      [|apply (window_identified env audio _ (1 + 1) s2 "en" 0.6);
        [apply Hload; lia|lia|reflexivity|apply H2]
       |reflexivity].
    simpl. split; [reflexivity|].
    eexists. split; [rewrite <- app_assoc; reflexivity|].
    split; reflexivity.
  - intros Hlen out. subst out.
    destruct offsets as [|s1 [|s2 [|s3 rest]]]; simpl in Hlen; try lia.
    erewrite detect_language_reject;
      [|apply (window_identified env audio _ 1 s1 "en" 0.3);
        [apply Hload; lia|lia|reflexivity|apply H1]
       |reflexivity].
    erewrite detect_language_reject;
      [|apply (window_identified env audio _ (1 + 1) s2 "en" 0.6);
        [apply Hload; lia|lia|reflexivity|apply H2]
       |reflexivity].
    erewrite detect_language_accept;
      [|apply (window_identified env audio _ (1 + 1 + 1) s3 "fr" 0.9);
        [apply Hload; lia|lia|reflexivity|apply H3]
       |reflexivity].
    simpl. split; [reflexivity|].
    eexists. split; [rewrite <- !app_assoc; reflexivity|].
    split; reflexivity.
Qed.

Lemma detector_three_windows_witness :
  (let out := detect_language three_windows_env clip [0; 35000; 70000] 0.5 5 1
                empty_world in
   out.1 = Ok {| language := "en"; probability := 0.6; iterations := 2 |}
   ∧ ∃ evs, trace out.2 = trace empty_world ++ evs
            ∧ entered evs = [1; 2]
            ∧ evaluated evs = [(1, ("en", 0.3%float)); (2, ("en", 0.6%float))])
  ∧ (let out := detect_language three_windows_env clip [0; 35000; 70000] 0.95 3 1
                  empty_world in
     out.1 = Ok {| language := "fr"; probability := 0.9; iterations := 3 |}
     ∧ ∃ evs, trace out.2 = trace empty_world ++ evs
              ∧ entered evs = [1; 2; 3]
              ∧ evaluated evs = [(1, ("en", 0.3%float)); (2, ("en", 0.6%float));
                                 (3, ("fr", 0.9%float))]).
Proof.
  pose proof (detector_three_windows three_windows_env clip [0; 35000; 70000]
                empty_world
                (λ _ _, eq_refl) (λ _, eq_refl) (λ _, eq_refl) (λ _, eq_refl))
    as [Hfirst Hsecond].
  split.
  - apply Hfirst. simpl. lia.
  - apply Hsecond. simpl. lia.
Defined.

(** C8.  For [max_iterations >= 1] and any behaviour of the windows, the
    detector returns (it is a total function) after entering the iterations
    1, 2, ..., n for some n between 1 and [max_iterations]: the depth of the
    recursion is the number of iterations consumed, it is the iteration count
    of the result when there is one, and it never exceeds [max_iterations],
    whether or not a window meets the threshold. *)
Theorem detector_depth_bounded {Segments : Type}
    (env : Env Segments) (audio : Path) (offsets : list Z)
    (min_probability : float) (max_iterations : Z) (w : World) :
  1 ≤ max_iterations →
  let out := detect_language env audio offsets min_probability max_iterations 1 w in
  ∃ evs,
    trace out.2 = trace w ++ evs
    ∧ entered evs = seqZ 1 (Z.of_nat (activations evs))
    ∧ 1 ≤ Z.of_nat (activations evs) ≤ max_iterations
    ∧ (∀ d, out.1 = Ok d → iterations d = Z.of_nat (activations evs))
    ∧ (length (evaluated evs) ≤ activations evs)%nat.
Proof.
  intros Hmax out. subst out.
  destruct (run_depth env audio offsets min_probability max_iterations 1 w)
    as (evs & n & Htr & Hent & Hbound & Hres & Hev).
  assert (Hact : activations evs = S n).
  { unfold activations. rewrite Hent, length_seqZ. lia. }
  exists evs. rewrite Hact.
  split; [exact Htr|]. split; [exact Hent|]. split; [lia|].
  split; [|exact Hev].
  intros d Hd. rewrite (Hres d Hd). lia.
Qed.

Lemma detector_depth_bounded_witness :
  1 ≤ 3
  ∧ let out := detect_language three_windows_env clip [0; 35000; 70000] 0.95 3 1
                 empty_world in
    ∃ evs,
      trace out.2 = trace empty_world ++ evs
      ∧ entered evs = seqZ 1 (Z.of_nat (activations evs))
      ∧ 1 ≤ Z.of_nat (activations evs) ≤ 3
      ∧ (∀ d, out.1 = Ok d → iterations d = Z.of_nat (activations evs))
      ∧ (length (evaluated evs) ≤ activations evs)%nat.
Proof.
  assert (H : 1 ≤ 3) by lia.
  split; [exact H|].
  exact (detector_depth_bounded three_windows_env clip [0; 35000; 70000] 0.95 3
           empty_world H).
Defined.

(** Without the bound [max_iterations >= 1] the first iteration is still
    entered: the depth is 1 when [max_iterations] is 0. *)
Example detector_depth_without_bound :
  activations
    (trace (detect_language three_windows_env clip [0] 0.95 0 1 empty_world).2)
  = 1%nat.
Proof. vm_compute. reflexivity. Qed.

(** C9, as stated, fails: when the decoding of the slice raises, the file of
    that iteration, created by the run in an empty directory, is still there
    after the run. *)
Lemma detector_leaves_file_when_decoding_fails :
  let out := detect_language undecodable_env clip [0] 0 1 1 empty_world in
  out.1 = Err (ExternalError CallLoadAudio)
  ∧ created (trace out.2) = [{| tmp_name := 0; tmp_suffix := ".mp3" |}]
  ∧ unlinked (trace out.2) = []
  ∧ tmpdir empty_world !! 0%nat = None
  ∧ tmpdir out.2 !! 0%nat = Some ".mp3"%string.
Proof. vm_compute. repeat split; reflexivity. Qed.

(** C9, amended.  Every window that is identified creates exactly one
    temporary file, with the suffix of the input, and deletes it before the
    identification is printed, leaving the temporary directory as it was.
    In any run every temporary file has the suffix of the input and no
    iteration creates more than one; after a run that returns a result, and
    after a run that raises anywhere but in the export or the decoding of a
    slice, every file the run created has been deleted and the temporary
    directory is what it was before the run; a run that raises in the export
    or the decoding of a slice leaves the file of that iteration, and only
    that one. *)
Theorem detector_temporary_files {Segments : Type}
    (env : Env Segments) (audio : Path) (offsets : list Z)
    (min_probability : float) (max_iterations : Z) (w : World) :
  (∀ i l p w',
     detect_window env audio offsets i w = (Ok (l, p), w') →
     let f := {| tmp_name := fresh (dom (tmpdir w));
                 tmp_suffix := path_suffix audio |} in
     tmpdir w !! tmp_name f = None
     ∧ trace w' = trace w ++ [EvLoadModel i; EvTempFile f; EvUnlink f;
                              EvIteration i l p]
     ∧ tmpdir w' = tmpdir w)
  ∧ let out := detect_language env audio offsets min_probability max_iterations 1 w in
    ∃ evs,
      trace out.2 = trace w ++ evs
      ∧ Forall (λ f, tmp_suffix f = path_suffix audio) (created evs)
      ∧ (length (created evs) ≤ activations evs)%nat
      ∧ match out.1 with
        | Ok _ =>
            tmpdir out.2 = tmpdir w
            ∧ unlinked evs = created evs
            ∧ length (created evs) = activations evs
        | Err e =>
            if leaves_file e
            then ∃ f, created evs = unlinked evs ++ [f]
                      ∧ tmpdir w !! tmp_name f = None
                      ∧ tmpdir out.2 = <[tmp_name f := tmp_suffix f]> (tmpdir w)
            else tmpdir out.2 = tmpdir w ∧ unlinked evs = created evs
        end.
Proof.
  split.
  - intros i l p w' Hw f. subst f. split; [apply fresh_temp_absent|].
    rewrite detect_window_run in Hw.
    destruct (detector_model_loads env i); [|discriminate].
    destruct (Py.getitem offsets (i - 1)) as [s|e]; [|discriminate].
    destruct (window env i s); try discriminate.
    injection Hw as <- <- <-. split; reflexivity.
  - apply run_cleanup.
Qed.

Lemma detector_temporary_files_witness :
  let out := detect_language three_windows_env clip [0; 35000; 70000] 0.5 5 1
               empty_world in
  ∃ evs,
    trace out.2 = trace empty_world ++ evs
    ∧ Forall (λ f, tmp_suffix f = path_suffix clip) (created evs)
    ∧ (length (created evs) ≤ activations evs)%nat
    ∧ match out.1 with
      | Ok _ =>
          tmpdir out.2 = tmpdir empty_world
          ∧ unlinked evs = created evs
          ∧ length (created evs) = activations evs
      | Err e =>
          if leaves_file e
          then ∃ f, created evs = unlinked evs ++ [f]
                    ∧ tmpdir empty_world !! tmp_name f = None
                    ∧ tmpdir out.2
                      = <[tmp_name f := tmp_suffix f]> (tmpdir empty_world)
          else tmpdir out.2 = tmpdir empty_world ∧ unlinked evs = created evs
      end.
Proof.
  exact (proj2 (detector_temporary_files three_windows_env clip [0; 35000; 70000]
                  0.5 5 empty_world)).
Defined.

(** ** Prediction *)

Section PredictionFacts.
Context {Segments : Type} (env : Env Segments).

Lemma detect_window_stages (audio : Path) (offsets : list Z) (i : Z)
    (w w' : World) (r : res (string * float)) :
  detect_window env audio offsets i w = (r, w') →
  ∃ evs, trace w' = trace w ++ evs ∧ post_stages evs = [].
Proof.
  rewrite detect_window_run.
  destruct (detector_model_loads env i);
    [destruct (Py.getitem offsets (i - 1)) as [s|e];
     [destruct (window env i s)|]|];
    intros [= <- <-]; eexists; (split; [reflexivity|reflexivity]).
Qed.

(** The detector runs neither alignment nor diarization. *)
Lemma run_stages (audio : Path) (offsets : list Z) (min_probability : float)
    (max_iterations i : Z) (w : World) :
  ∃ evs,
    trace (detect_language env audio offsets min_probability max_iterations i w).2
    = trace w ++ evs
    ∧ post_stages evs = [].
Proof.
  revert i w.
  apply (detect_language_run_ind env audio offsets min_probability max_iterations
           (λ i w out, ∃ evs, trace out.2 = trace w ++ evs ∧ post_stages evs = [])).
  - intros i w e w' Hw. exact (detect_window_stages _ _ _ _ _ _ Hw).
  - intros i w l p w' Hw _. exact (detect_window_stages _ _ _ _ _ _ Hw).
  - intros i w l p w' Hw _ _ (evs2 & Htr2 & Hst2).
    apply detect_window_stages in Hw as (evs1 & Htr1 & Hst1).
    exists (evs1 ++ evs2). rewrite post_stages_app, Hst1, Hst2, Htr2, Htr1, app_assoc.
    split; reflexivity.
Qed.

(** Language resolution when the language is absent and the audio has been
    measured: the planner and the detector both get the clamped count. *)
Lemma resolve_language_run (audio_file : Path) (min_probability : float)
    (max_tries : Z) (audio_duration_ms : N) (w : World) :
  audio_length env audio_file = Some audio_duration_ms →
  let tries := Z.min max_tries (Z.of_N audio_duration_ms / 30000) in
  ∃ offsets,
    distribute_segments_equally (Z.of_N audio_duration_ms) 30000 tries = Ok offsets
    ∧ length offsets = Z.to_nat tries
    ∧ resolve_language env audio_file None min_probability max_tries w
      = match detect_language env audio_file offsets min_probability tries 1
                {| tmpdir := tmpdir w;
                   trace := trace w ++ [EvSegmentsStarts offsets] |} with
        | (Ok d, w2) =>
            (Ok (Some (language d)),
             {| tmpdir := tmpdir w2;
                trace := trace w2
                         ++ [EvDetected (language d) (probability d) (iterations d)] |})
        | (Err e, w2) => (Err e, w2)
        end.
Proof.
  intros Hlen tries.
  destruct (plan_total (Z.of_N audio_duration_ms) 30000 tries)
    as (offsets & Hplan & Hcount).
  exists offsets. split; [exact Hplan|]. split; [exact Hcount|].
  unfold resolve_language, get_audio_duration, clamped_tries.
  unfold mbind, M_bind, bind, mret, M_ret, ret, lift, emit, external_value.
  rewrite Hlen. cbv beta iota delta [ret]. fold tries. rewrite Hplan.
  destruct (detect_language env audio_file offsets min_probability tries 1 _)
    as [[[l p n]|e] w2]; reflexivity.
Qed.

Lemma resolve_language_stages (audio_file : Path) (language : option string)
    (min_probability : float) (max_tries : Z) (w : World) :
  ∃ evs,
    trace (resolve_language env audio_file language min_probability max_tries w).2
    = trace w ++ evs
    ∧ post_stages evs = [].
Proof.
  destruct language as [l|].
  { exists []. simpl. rewrite app_nil_r. split; reflexivity. }
  destruct (audio_length env audio_file) as [d|] eqn:Hlen.
  - destruct (resolve_language_run audio_file min_probability max_tries d w Hlen)
      as (offsets & _ & _ & ->).
    destruct (run_stages audio_file offsets min_probability
                (Z.min max_tries (Z.of_N d / 30000)) 1
                {| tmpdir := tmpdir w;
                   trace := trace w ++ [EvSegmentsStarts offsets] |})
      as (evs & Htr & Hst).
    destruct (detect_language _ _ _ _ _ _ _) as [[r|e] w2]; simpl in *.
    + exists ((EvSegmentsStarts offsets :: evs)
              ++ [EvDetected (language r) (probability r) (iterations r)]).
      rewrite Htr, post_stages_app. simpl.
      fold (post_stages evs). rewrite Hst, <- !app_assoc. split; reflexivity.
    + exists (EvSegmentsStarts offsets :: evs).
      rewrite Htr, <- app_assoc. simpl. fold (post_stages evs). split; [reflexivity|exact Hst].
  - exists []. unfold resolve_language, get_audio_duration.
    unfold mbind, M_bind, bind, external_value, raise.
    rewrite Hlen. simpl. rewrite app_nil_r. split; reflexivity.
Qed.

Lemma run_transcription_stages (audio_file : Path) (language : option string)
    (w : World) :
  ∃ evs,
    trace (run_transcription env audio_file language w).2 = trace w ++ evs
    ∧ post_stages evs = [].
Proof.
  unfold run_transcription. run_monad.
  destruct (asr_model_loads env language); simpl;
    [|exists []; rewrite app_nil_r; split; reflexivity].
  destruct (audio_loads env audio_file); simpl;
    [|exists []; rewrite app_nil_r; split; reflexivity].
  destruct (transcribe env audio_file language); simpl;
    exists [EvTranscribe language]; split; reflexivity.
Qed.

(** The stage that [post_process] runs, and the result when it runs none. *)
Lemma post_process_run (align_output diarization : bool)
    (result : Transcription Segments) (w : World) :
  let gate := has_align_model env (result_language result) in
  ∃ evs,
    trace (post_process env align_output diarization result w).2 = trace w ++ evs
    ∧ evs = (if gate then
               if align_output then [EvAlign]
               else if diarization then [EvDiarize] else []
             else [])
    ∧ (evs = [] → post_process env align_output diarization result w = (Ok result, w)).
Proof.
  intros gate. subst gate. unfold post_process, align, diarize. run_monad.
  destruct (has_align_model env (result_language result)); simpl.
  - destruct align_output; simpl.
    + exists [EvAlign]. destruct (whisperx_align env result); simpl;
        (split; [reflexivity|split; [reflexivity|discriminate]]).
    + destruct diarization; simpl.
      * exists [EvDiarize]. destruct (whisperx_diarize env result); simpl;
          (split; [reflexivity|split; [reflexivity|discriminate]]).
      * exists []. rewrite app_nil_r. repeat split.
  - exists []. rewrite app_nil_r. repeat split.
Qed.

End PredictionFacts.

(** A prediction with the language given skips the detection. *)
Lemma predict_with_language {Segments : Type} (env : Env Segments)
    (audio_file : Path) (l : string) (min_probability : float) (max_tries : Z)
    (align_output diarization : bool) (w : World) :
  predict env audio_file (Some l) min_probability max_tries align_output diarization w
  = match run_transcription env audio_file (Some l) w with
    | (Ok result, w2) =>
        match post_process env align_output diarization result w2 with
        | (Ok result', w3) =>
            (Ok {| segments := result_segments result';
                   detected_language := result_language result |}, w3)
        | (Err e, w3) => (Err e, w3)
        end
    | (Err e, w2) => (Err e, w2)
    end.
Proof.
  unfold predict, resolve_language, mbind, M_bind, bind, mret, M_ret, ret.
  destruct (run_transcription env audio_file (Some l) w) as [[result|e] w2];
    [|reflexivity].
  destruct (post_process env align_output diarization result w2) as [[result'|e] w3];
    reflexivity.
Qed.

(** A prediction with the language absent: the plan for the clamped number
    of tries, the detector under the same bound, then the prediction with the
    language it returns. *)
Lemma predict_detects_first {Segments : Type} (env : Env Segments)
    (audio_file : Path) (language_detection_min_prob : float)
    (language_detection_max_tries : Z) (align_output diarization : bool)
    (audio_duration_ms : N) (w : World) :
  audio_length env audio_file = Some audio_duration_ms →
  let tries :=
    Z.min language_detection_max_tries (Z.of_N audio_duration_ms / 30000) in
  ∃ offsets,
    distribute_segments_equally (Z.of_N audio_duration_ms) 30000 tries = Ok offsets
    ∧ length offsets = Z.to_nat tries
    ∧ predict env audio_file None language_detection_min_prob
        language_detection_max_tries align_output diarization w
      = match detect_language env audio_file offsets
                language_detection_min_prob tries 1
                {| tmpdir := tmpdir w;
                   trace := trace w ++ [EvSegmentsStarts offsets] |} with
        | (Ok d, w2) =>
            predict env audio_file (Some (language d))
              language_detection_min_prob language_detection_max_tries
              align_output diarization
              {| tmpdir := tmpdir w2;
                 trace := trace w2
                          ++ [EvDetected (language d) (probability d)
                                (iterations d)] |}
        | (Err e, w2) => (Err e, w2)
        end.
Proof.
  intros Hlen tries.
  destruct (resolve_language_run env audio_file language_detection_min_prob
              language_detection_max_tries audio_duration_ms w Hlen)
    as (offsets & Hplan & Hcount & Hres).
  exists offsets. split; [exact Hplan|]. split; [exact Hcount|].
  fold tries in Hres.
  unfold predict at 1. unfold mbind at 1. unfold M_bind, bind at 1.
  rewrite Hres.
  destruct (detect_language env audio_file offsets _ tries 1 _) as [[d|e] w2];
    [|reflexivity].
  rewrite predict_with_language.
  unfold mbind, M_bind, bind, mret, M_ret, ret.
  destruct (run_transcription env audio_file (Some (language d)) _)
    as [[result|e] w3]; [|reflexivity].
  destruct (post_process env align_output diarization result w3)
    as [[result'|e] w4]; reflexivity.
Qed.

(** C6.  When the language is absent and the decoded audio is
    [audio_duration_ms] long, the number of tries is the minimum of
    [language_detection_max_tries] and the floor of [audio_duration_ms / 30000];
    the planner is called with that number as its iteration count (it returns
    that many offsets) and the detector with the same number as its bound,
    on the offsets of that plan.  The prediction then goes on with the detected
    language. *)
Theorem prediction_clamps_tries {Segments : Type} (env : Env Segments)
    (audio_file : Path) (language_detection_min_prob : float)
    (language_detection_max_tries : Z) (align_output diarization : bool)
    (audio_duration_ms : N) (w : World) :
  audio_length env audio_file = Some audio_duration_ms →
  let tries :=
    Z.min language_detection_max_tries (Z.of_N audio_duration_ms / 30000) in
  clamped_tries language_detection_max_tries (Z.of_N audio_duration_ms) 30000 = tries
  ∧ ∃ offsets,
      distribute_segments_equally (Z.of_N audio_duration_ms) 30000 tries = Ok offsets
      ∧ length offsets = Z.to_nat tries
      ∧ predict env audio_file None language_detection_min_prob
          language_detection_max_tries align_output diarization w
        = match detect_language env audio_file offsets
                  language_detection_min_prob tries 1
                  {| tmpdir := tmpdir w;
                     trace := trace w ++ [EvSegmentsStarts offsets] |} with
          | (Ok d, w2) =>
              predict env audio_file (Some (language d))
                language_detection_min_prob language_detection_max_tries
                align_output diarization
                {| tmpdir := tmpdir w2;
                   trace := trace w2
                            ++ [EvDetected (language d) (probability d)
                                  (iterations d)] |}
          | (Err e, w2) => (Err e, w2)
          end.
Proof.
  intros Hlen tries. split; [reflexivity|].
  exact (predict_detects_first env audio_file language_detection_min_prob
           language_detection_max_tries align_output diarization
           audio_duration_ms w Hlen).
Qed.

Lemma prediction_clamps_tries_witness :
  audio_length three_windows_env clip = Some 100000%N
  ∧ clamped_tries 5 (Z.of_N 100000) 30000 = 3
  ∧ ∃ offsets,
      distribute_segments_equally (Z.of_N 100000) 30000 3 = Ok offsets
      ∧ length offsets = 3%nat
      ∧ predict three_windows_env clip None 0.5 5 true false empty_world
        = match detect_language three_windows_env clip offsets 0.5 3 1
                  {| tmpdir := tmpdir empty_world;
                     trace := trace empty_world ++ [EvSegmentsStarts offsets] |} with
          | (Ok d, w2) =>
              predict three_windows_env clip (Some (language d)) 0.5 5 true false
                {| tmpdir := tmpdir w2;
                   trace := trace w2
                            ++ [EvDetected (language d) (probability d)
                                  (iterations d)] |}
          | (Err e, w2) => (Err e, w2)
          end.
Proof.
  split; [reflexivity|].
  exact (prediction_clamps_tries three_windows_env clip 0.5 5 true false 100000
           empty_world eq_refl).
Defined.

(** C10, as stated, fails: with a negative [language_detection_max_tries] the
    clamped number of tries of a clip shorter than one segment is negative,
    not 0.  The prediction aborts all the same. *)
Lemma short_audio_negative_tries :
  audio_length short_clip_env clip = Some 500%N
  ∧ clamped_tries (-1) (Z.of_N 500) 30000 = -1
  ∧ (predict short_clip_env clip None 0 (-1) false false empty_world).1
    = Err IndexError.
Proof. vm_compute. repeat split; reflexivity. Qed.

(** C10, amended.  When the language is absent and the decoded audio is
    shorter than 30000 ms, the clamped number of tries is the minimum of
    [language_detection_max_tries] and 0 (so 0 unless
    [language_detection_max_tries] is negative), the planner returns the empty
    sequence, the first lookup [segments_starts[iteration - 1]] of the detector
    is out of bounds, and the prediction returns no result: it raises
    IndexError as soon as the detector has built its model (and the error of
    that construction otherwise). *)
Theorem short_audio_aborts {Segments : Type} (env : Env Segments)
    (audio_file : Path) (language_detection_min_prob : float)
    (language_detection_max_tries : Z) (align_output diarization : bool)
    (audio_duration_ms : N) (w : World) :
  audio_length env audio_file = Some audio_duration_ms →
  Z.of_N audio_duration_ms < 30000 →
  let tries :=
    clamped_tries language_detection_max_tries (Z.of_N audio_duration_ms) 30000 in
  let out := predict env audio_file None language_detection_min_prob
               language_detection_max_tries align_output diarization w in
  tries = Z.min language_detection_max_tries 0
  ∧ (0 ≤ language_detection_max_tries → tries = 0)
  ∧ distribute_segments_equally (Z.of_N audio_duration_ms) 30000 tries = Ok []
  ∧ Py.getitem ([] : list Z) (1 - 1) = Err IndexError
  ∧ is_ok out.1 = false
  ∧ (detector_model_loads env 1 = true → out.1 = Err IndexError)
  ∧ (detector_model_loads env 1 = false →
     out.1 = Err (ExternalError CallLoadModel)).
Proof.
  intros Hlen Hshort tries out.
  assert (Htries : tries = Z.min language_detection_max_tries 0).
  { unfold tries, clamped_tries. rewrite Z.div_small by lia. reflexivity. }
  assert (Hplan : distribute_segments_equally (Z.of_N audio_duration_ms) 30000 tries
                  = Ok []) by (apply plan_none; lia).
  assert (Hout : out.1 = if detector_model_loads env 1 then Err IndexError
                         else Err (ExternalError CallLoadModel)).
  { subst out.
    destruct (predict_detects_first env audio_file language_detection_min_prob
                language_detection_max_tries align_output diarization
                audio_duration_ms w Hlen) as (offsets & Hplan' & _ & ->).
    fold (clamped_tries language_detection_max_tries (Z.of_N audio_duration_ms) 30000)
      in Hplan' |- *.
    fold tries in Hplan' |- *. rewrite Hplan in Hplan'. injection Hplan' as <-.
    rewrite detect_language_step, detect_window_run, getitem_nil.
    destruct (detector_model_loads env 1); reflexivity. }
  split; [exact Htries|]. split; [lia|]. split; [exact Hplan|].
  split; [apply getitem_nil|].
  rewrite Hout. split; [destruct (detector_model_loads env 1); reflexivity|].
  split; intros ->; reflexivity.
Qed.

Lemma short_audio_aborts_witness :
  audio_length short_clip_env clip = Some 500%N
  ∧ Z.of_N 500 < 30000
  ∧ clamped_tries 5 (Z.of_N 500) 30000 = Z.min 5 0
  ∧ (0 ≤ 5 → clamped_tries 5 (Z.of_N 500) 30000 = 0)
  ∧ distribute_segments_equally (Z.of_N 500) 30000
      (clamped_tries 5 (Z.of_N 500) 30000) = Ok []
  ∧ Py.getitem ([] : list Z) (1 - 1) = Err IndexError
  ∧ is_ok (predict short_clip_env clip None 0 5 false false empty_world).1 = false
  ∧ (detector_model_loads short_clip_env 1 = true →
     (predict short_clip_env clip None 0 5 false false empty_world).1
     = Err IndexError)
  ∧ (detector_model_loads short_clip_env 1 = false →
     (predict short_clip_env clip None 0 5 false false empty_world).1
     = Err (ExternalError CallLoadModel)).
Proof.
  assert (H : Z.of_N 500 < 30000) by reflexivity.
  split; [reflexivity|]. split; [exact H|].
  exact (short_audio_aborts short_clip_env clip 0 5 false false 500 empty_world
           eq_refl H).
Defined.

(** C7.  A prediction runs at most one of alignment and diarization.  Once the
    transcription has returned [result]: alignment runs exactly when
    [align_output] is set and the language of [result] has an alignment
    model; diarization runs exactly when [align_output] is not set,
    [diarization] is set and the language has an alignment model; when neither
    runs, the prediction returns the segments and the language of [result] as
    they are, with no further effect.  A prediction that raises before the
    transcription has returned runs neither. *)
Theorem alignment_or_diarization {Segments : Type} (env : Env Segments)
    (audio_file : Path) (language : option string)
    (language_detection_min_prob : float) (language_detection_max_tries : Z)
    (align_output diarization : bool) (w : World) :
  let out := predict env audio_file language language_detection_min_prob
               language_detection_max_tries align_output diarization w in
  ∃ evs,
    trace out.2 = trace w ++ evs
    ∧ (post_stages evs = [] ∨ post_stages evs = [EvAlign]
       ∨ post_stages evs = [EvDiarize])
    ∧ match resolve_language env audio_file language language_detection_min_prob
              language_detection_max_tries w with
      | (Ok l, w1) =>
          match run_transcription env audio_file l w1 with
          | (Ok result, w2) =>
              let gate := has_align_model env (result_language result) in
              (post_stages evs = [EvAlign] ↔ align_output = true ∧ gate = true)
              ∧ (post_stages evs = [EvDiarize]
                 ↔ align_output = false ∧ diarization = true ∧ gate = true)
              ∧ (post_stages evs = [] →
                 out = (Ok {| segments := result_segments result;
                              detected_language := result_language result |}, w2))
          | (Err _, _) => post_stages evs = []
          end
      | (Err _, _) => post_stages evs = []
      end.
Proof.
  intros out. subst out. unfold predict, mbind, M_bind, bind, mret, M_ret, ret.
  destruct (resolve_language_stages env audio_file language
              language_detection_min_prob language_detection_max_tries w)
    as (evs0 & Htr0 & Hst0).
  destruct (resolve_language env audio_file language _ _ w) as [[l|e] w1];
    simpl in Htr0; [|exists evs0; simpl; auto].
  destruct (run_transcription_stages env audio_file l w1) as (evs1 & Htr1 & Hst1).
  destruct (run_transcription env audio_file l w1) as [[result|e] w2];
    simpl in Htr1.
  2:{ exists (evs0 ++ evs1). simpl.
      rewrite Htr1, Htr0, app_assoc, post_stages_app, Hst0, Hst1. auto. }
  destruct (post_process_run env align_output diarization result w2)
    as (evs2 & Htr2 & Hevs2 & Hnone).
  assert (Hst2 : post_stages evs2 = evs2).
  { rewrite Hevs2.
    destruct (has_align_model env _), align_output, diarization; reflexivity. }
  assert (Hst : post_stages (evs0 ++ evs1 ++ evs2) = evs2).
  { rewrite !post_stages_app, Hst0, Hst1, Hst2. reflexivity. }
  assert (Htr : trace (post_process env align_output diarization result w2).2
                = trace w ++ evs0 ++ evs1 ++ evs2).
  { rewrite Htr2, Htr1, Htr0, <- !app_assoc. reflexivity. }
  exists (evs0 ++ evs1 ++ evs2). rewrite Hst. split.
  { destruct (post_process env align_output diarization result w2) as [[r'|e] w3];
      exact Htr. }
  split.
  { rewrite Hevs2.
    destruct (has_align_model env _), align_output, diarization; auto. }
  split; [|split].
  - rewrite Hevs2.
    destruct (has_align_model env _), align_output, diarization;
      split; try discriminate; auto; intros [? ?]; discriminate.
  - rewrite Hevs2.
    destruct (has_align_model env _), align_output, diarization;
      split; try discriminate; auto; intros (? & ? & ?); discriminate.
  - intros Hnil. rewrite (Hnone Hnil). reflexivity.
Qed.

Lemma alignment_or_diarization_witness :
  let out := predict three_windows_env clip (Some "en"%string) 0 5 true true
               empty_world in
  ∃ evs,
    trace out.2 = trace empty_world ++ evs
    ∧ (post_stages evs = [] ∨ post_stages evs = [EvAlign]
       ∨ post_stages evs = [EvDiarize])
    ∧ match resolve_language three_windows_env clip (Some "en"%string) 0 5
              empty_world with
      | (Ok l, w1) =>
          match run_transcription three_windows_env clip l w1 with
          | (Ok result, w2) =>
              let gate := has_align_model three_windows_env (result_language result) in
              (post_stages evs = [EvAlign] ↔ true = true ∧ gate = true)
              ∧ (post_stages evs = [EvDiarize]
                 ↔ true = false ∧ true = true ∧ gate = true)
              ∧ (post_stages evs = [] →
                 out = (Ok {| segments := result_segments result;
                              detected_language := result_language result |}, w2))
          | (Err _, _) => post_stages evs = []
          end
      | (Err _, _) => post_stages evs = []
      end.
Proof.
  exact (alignment_or_diarization three_windows_env clip (Some "en"%string) 0 5
           true true empty_world).
Defined.

(** Both stages requested, language supported: alignment alone runs. *)
Example alignment_takes_priority :
  post_stages
    (trace (predict three_windows_env clip (Some "en"%string) 0 5 true true
              empty_world).2)
  = [EvAlign].
Proof. vm_compute. reflexivity. Qed.

(** A language without an alignment model: diarization is skipped too. *)
Example unsupported_language_skips_diarization :
  predict three_windows_env clip (Some "xx"%string) 0 5 false true empty_world
  = (Ok {| segments := ["hello"%string]; detected_language := "xx" |},
     {| tmpdir := ∅; trace := [EvTranscribe (Some "xx"%string)] |}).
Proof. vm_compute. reflexivity. Qed.

(** * Further properties *)

(** ** Segment planner *)

(** Position [i] of a plan of more than one iteration. *)
Lemma plan_many_lookup (q a n : Z) (i : nat) (x : Z) :
  1 < n →
  (spaced q (n - 1) ++ [a]) !! i = Some x →
  (Z.of_nat i < n - 1 ∧ x = Z.of_nat i * q) ∨ (Z.of_nat i = n - 1 ∧ x = a).
Proof.
  intros Hn Hx. assert (Hlen := spaced_length q (n - 1)).
  apply lookup_app_Some in Hx as [Hx|[Hi Hx]].
  - apply spaced_lookup in Hx as [Hi ->]. left. split; [lia|reflexivity].
  - right. destruct (i - length (spaced q (n - 1)))%nat as [|k] eqn:Hk;
      simpl in Hx; [|discriminate].
    injection Hx as <-. split; [lia|reflexivity].
Qed.

(** The planner raises for no integers at all: the index it overwrites exists
    whenever it is overwritten.  It returns as many offsets as iterations, and
    none when the iteration count is zero or negative. *)
Theorem planner_never_raises (total_duration segments_duration iterations : Z) :
  ∃ plan,
    distribute_segments_equally total_duration segments_duration iterations = Ok plan
    ∧ Z.of_nat (length plan) = Z.max 0 iterations
    ∧ (iterations ≤ 0 ↔ plan = []).
Proof.
  destruct (plan_total total_duration segments_duration iterations)
    as (plan & Hplan & Hlen).
  exists plan. split; [exact Hplan|]. split; [lia|]. split.
  - intros Hle. destruct plan; [reflexivity|]. simpl in Hlen. lia.
  - intros ->. simpl in Hlen. lia.
Qed.

(** With more than one iteration the offsets before the last are exactly one
    spacing apart, and the last gap is the spacing plus the remainder of the
    floor division: at least the spacing, and less than [iterations - 1] more. *)
Theorem planner_gaps (total_duration segments_duration iterations : Z) :
  1 < iterations →
  let available := total_duration - segments_duration in
  let spacing := available / (iterations - 1) in
  ∃ plan,
    distribute_segments_equally total_duration segments_duration iterations = Ok plan
    ∧ (∀ (i : nat) x y, Z.of_nat i + 1 < iterations - 1 →
         plan !! i = Some x → plan !! S i = Some y → y - x = spacing)
    ∧ (∀ (i : nat) x y, Z.of_nat i + 1 = iterations - 1 →
         plan !! i = Some x → plan !! S i = Some y →
         y - x = spacing + available mod (iterations - 1)
         ∧ spacing ≤ y - x < spacing + (iterations - 1)).
Proof.
  intros Hn available spacing. eexists. split; [apply plan_many; exact Hn|].
  fold available. fold spacing.
  assert (Hdiv : available = (iterations - 1) * spacing + available mod (iterations - 1))
    by (apply Z.div_mod; lia).
  assert (Hmod : 0 ≤ available mod (iterations - 1) < iterations - 1)
    by (apply Z.mod_pos_bound; lia).
  split.
  - intros i x y Hi Hx Hy.
    apply (plan_many_lookup _ _ iterations) in Hx as [[_ ->]|[Hx _]]; [|lia|lia].
    apply (plan_many_lookup _ _ iterations) in Hy as [[_ ->]|[Hy _]]; lia.
  - intros i x y Hi Hx Hy.
    apply (plan_many_lookup _ _ iterations) in Hx as [[_ ->]|[Hx _]]; [|lia|lia].
    apply (plan_many_lookup _ _ iterations) in Hy as [[Hy _]|[_ ->]]; lia.
Qed.

Lemma planner_gaps_witness :
  1 < 4
  ∧ ∃ plan,
      distribute_segments_equally 100000 30000 4 = Ok plan
      ∧ (∀ (i : nat) x y, Z.of_nat i + 1 < 4 - 1 →
           plan !! i = Some x → plan !! S i = Some y →
           y - x = (100000 - 30000) / (4 - 1))
      ∧ (∀ (i : nat) x y, Z.of_nat i + 1 = 4 - 1 →
           plan !! i = Some x → plan !! S i = Some y →
           y - x = (100000 - 30000) / (4 - 1) + (100000 - 30000) mod (4 - 1)
           ∧ (100000 - 30000) / (4 - 1) ≤ y - x
               < (100000 - 30000) / (4 - 1) + (4 - 1)).
Proof.
  assert (H : 1 < 4) by lia.
  split; [exact H|]. exact (planner_gaps 100000 30000 4 H).
Defined.

(** The planner does not validate the span: when the audio is shorter than one
    segment and more than one iteration is asked for, no offset is positive
    and the plan ends with the negative offset
    [total_duration - segments_duration]. *)
Theorem planner_short_audio_offsets (total_duration segments_duration iterations : Z) :
  total_duration < segments_duration → 1 < iterations →
  ∃ plan,
    distribute_segments_equally total_duration segments_duration iterations = Ok plan
    ∧ Forall (λ x, x ≤ 0) plan
    ∧ ∃ x, list.last plan = Some x ∧ x = total_duration - segments_duration ∧ x < 0.
Proof.
  intros Hshort Hn. eexists. split; [apply plan_many; exact Hn|].
  assert (Hq : (total_duration - segments_duration) / (iterations - 1) < 0)
    by (apply Z.div_lt_upper_bound; lia).
  split.
  - apply Forall_lookup_2. intros i x Hx.
    destruct (plan_many_lookup _ _ iterations i x Hn Hx) as [[_ ->]|[_ ->]]; nia.
  - eexists. split; [apply last_snoc|]. split; [reflexivity|lia].
Qed.

Lemma planner_short_audio_offsets_witness :
  10000 < 30000 ∧ 1 < 3
  ∧ ∃ plan,
      distribute_segments_equally 10000 30000 3 = Ok plan
      ∧ Forall (λ x, x ≤ 0) plan
      ∧ ∃ x, list.last plan = Some x ∧ x = 10000 - 30000 ∧ x < 0.
Proof.
  assert (H1 : 10000 < 30000) by lia.
  assert (H2 : 1 < 3) by lia.
  split; [exact H1|]. split; [exact H2|].
  exact (planner_short_audio_offsets 10000 30000 3 H1 H2).
Defined.

(** ** Prediction: the windows of the detection *)

(** A plan of [n >= 1] iterations over audio that holds [n] whole segments:
    every window lies inside the audio and consecutive windows do not
    overlap. *)
Lemma plan_windows_fit (total seg n : Z) (plan : list Z) :
  0 < seg → 1 ≤ n → n * seg ≤ total →
  distribute_segments_equally total seg n = Ok plan →
  Forall (λ x, 0 ≤ x ∧ x + seg ≤ total) plan
  ∧ (∀ (i : nat) x y, plan !! i = Some x → plan !! S i = Some y → x + seg ≤ y).
Proof.
  intros Hseg Hn Hfit Hplan. destruct (Z.eq_dec n 1) as [->|Hn1].
  - rewrite plan_one in Hplan. injection Hplan as <-. split.
    + apply Forall_singleton. lia.
    + intros i x y _ Hy. destruct i; discriminate.
  - assert (Hgt : 1 < n) by lia.
    rewrite plan_many in Hplan by exact Hgt. injection Hplan as <-.
    set (a := total - seg). set (q := a / (n - 1)).
    assert (Hspan : (n - 1) * seg ≤ a) by (unfold a; lia).
    assert (Ha : 0 ≤ a).
    { transitivity ((n - 1) * seg); [apply Z.mul_nonneg_nonneg; lia|exact Hspan]. }
    assert (Hq : seg ≤ q) by (apply Z.div_le_lower_bound; lia).
    assert (Hdiv : a = (n - 1) * q + a mod (n - 1)) by (apply Z.div_mod; lia).
    assert (Hmod : 0 ≤ a mod (n - 1) < n - 1) by (apply Z.mod_pos_bound; lia).
    split.
    + apply Forall_lookup_2. intros i x Hx.
      destruct (plan_many_lookup _ _ n i x Hgt Hx) as [[Hi ->]|[_ ->]];
        [|unfold a; lia].
      assert (0 ≤ Z.of_nat i * q ≤ a)
        by (apply spacing_bounds; [exact Ha|exact Hgt|lia]).
      unfold a in *. lia.
    + intros i x y Hx Hy.
      destruct (plan_many_lookup _ _ n i x Hgt Hx) as [[Hi ->]|[Hi _]].
      * destruct (plan_many_lookup _ _ n (S i) y Hgt Hy) as [[_ ->]|[Hsi ->]]; nia.
      * apply lookup_lt_Some in Hy. rewrite length_app, spaced_length in Hy.
        simpl in Hy. lia.
Qed.

(** When the language is absent, at least one try is allowed and the audio is
    at least 30000 ms long, the clamped number of tries is at least 1 and the
    detection runs on windows that all lie inside the audio and that do not
    overlap: each offset is at least 30000 ms after the one before. *)
Theorem detection_windows_inside_and_disjoint {Segments : Type} (env : Env Segments)
    (audio_file : Path) (language_detection_min_prob : float)
    (language_detection_max_tries : Z) (align_output diarization : bool)
    (audio_duration_ms : N) (w : World) :
  audio_length env audio_file = Some audio_duration_ms →
  1 ≤ language_detection_max_tries →
  30000 ≤ Z.of_N audio_duration_ms →
  let tries :=
    clamped_tries language_detection_max_tries (Z.of_N audio_duration_ms) 30000 in
  1 ≤ tries ≤ language_detection_max_tries
  ∧ ∃ offsets,
      predict env audio_file None language_detection_min_prob
        language_detection_max_tries align_output diarization w
      = match detect_language env audio_file offsets
                language_detection_min_prob tries 1
                {| tmpdir := tmpdir w;
                   trace := trace w ++ [EvSegmentsStarts offsets] |} with
        | (Ok d, w2) =>
            predict env audio_file (Some (language d))
              language_detection_min_prob language_detection_max_tries
              align_output diarization
              {| tmpdir := tmpdir w2;
                 trace := trace w2
                          ++ [EvDetected (language d) (probability d)
                                (iterations d)] |}
        | (Err e, w2) => (Err e, w2)
        end
      ∧ Z.of_nat (length offsets) = tries
      ∧ Forall (λ x, 0 ≤ x ∧ x + 30000 ≤ Z.of_N audio_duration_ms) offsets
      ∧ (∀ (i : nat) x y,
           offsets !! i = Some x → offsets !! S i = Some y → x + 30000 ≤ y).
Proof.
  intros Hlen Hmax Hlong tries.
  assert (Hwhole : 1 ≤ Z.of_N audio_duration_ms / 30000)
    by (apply Z.div_le_lower_bound; lia).
  assert (Hfloor : 30000 * (Z.of_N audio_duration_ms / 30000)
                   ≤ Z.of_N audio_duration_ms) by (apply Z.mul_div_le; lia).
  assert (Htries : 1 ≤ tries ≤ language_detection_max_tries
                   ∧ tries * 30000 ≤ Z.of_N audio_duration_ms)
    by (unfold tries, clamped_tries; lia).
  split; [apply Htries|].
  destruct (predict_detects_first env audio_file language_detection_min_prob
              language_detection_max_tries align_output diarization
              audio_duration_ms w Hlen) as (offsets & Hplan & Hcount & Hrun).
  exists offsets. split; [exact Hrun|].
  fold (clamped_tries language_detection_max_tries (Z.of_N audio_duration_ms) 30000)
    in Hplan, Hcount.
  fold tries in Hplan, Hcount. split; [lia|].
  apply (plan_windows_fit (Z.of_N audio_duration_ms) 30000 tries offsets);
    [lia|lia|lia|exact Hplan].
Qed.

Lemma detection_windows_inside_and_disjoint_witness :
  audio_length three_windows_env clip = Some 100000%N
  ∧ 1 ≤ 5 ∧ 30000 ≤ Z.of_N 100000
  ∧ 1 ≤ clamped_tries 5 (Z.of_N 100000) 30000 ≤ 5
  ∧ ∃ offsets,
      predict three_windows_env clip None 0.5 5 false false empty_world
      = match detect_language three_windows_env clip offsets 0.5
                (clamped_tries 5 (Z.of_N 100000) 30000) 1
                {| tmpdir := tmpdir empty_world;
                   trace := trace empty_world ++ [EvSegmentsStarts offsets] |} with
        | (Ok d, w2) =>
            predict three_windows_env clip (Some (language d)) 0.5 5 false false
              {| tmpdir := tmpdir w2;
                 trace := trace w2
                          ++ [EvDetected (language d) (probability d)
                                (iterations d)] |}
        | (Err e, w2) => (Err e, w2)
        end
      ∧ Z.of_nat (length offsets) = clamped_tries 5 (Z.of_N 100000) 30000
      ∧ Forall (λ x, 0 ≤ x ∧ x + 30000 ≤ Z.of_N 100000) offsets
      ∧ (∀ (i : nat) x y,
           offsets !! i = Some x → offsets !! S i = Some y → x + 30000 ≤ y).
Proof.
  assert (H1 : 1 ≤ 5) by lia.
  assert (H2 : 30000 ≤ Z.of_N 100000) by (simpl; lia).
  split; [reflexivity|]. split; [exact H1|]. split; [exact H2|].
  exact (detection_windows_inside_and_disjoint three_windows_env clip 0.5 5
           false false 100000 empty_world eq_refl H1 H2).
Defined.

(** ** Language detector: results and errors of any run *)

Section RunFacts.
Context {Segments : Type} (env : Env Segments).
Variables (audio : Path) (offsets : list Z).
Variables (min_probability : float) (max_iterations : Z).

Local Abbreviation run := (detect_language env audio offsets min_probability max_iterations).
Local Abbreviation stops := (accepts min_probability max_iterations).

(** A result is the last window that was evaluated; that window stops the
    run and the windows before it did not. *)
Lemma run_result (i : Z) (w : World) (d : DetectionResult) :
  (run i w).1 = Ok d →
  ∃ evs before,
    trace (run i w).2 = trace w ++ evs
    ∧ evaluated evs = before ++ [(iterations d, (language d, probability d))]
    ∧ fst <$> evaluated evs = seqZ i (iterations d - i + 1)
    ∧ i ≤ iterations d
    ∧ stops (probability d) (iterations d) = true
    ∧ Forall (λ kp, stops kp.2.2 kp.1 = false) before.
Proof.
  revert d. revert i w.
  apply (detect_language_run_ind env audio offsets min_probability max_iterations
    (λ i w out, ∀ d, out.1 = Ok d →
      ∃ evs before,
        trace out.2 = trace w ++ evs
        ∧ evaluated evs = before ++ [(iterations d, (language d, probability d))]
        ∧ fst <$> evaluated evs = seqZ i (iterations d - i + 1)
        ∧ i ≤ iterations d
        ∧ stops (probability d) (iterations d) = true
        ∧ Forall (λ kp, stops kp.2.2 kp.1 = false) before)).
  - intros i w e w' _ d Hd. discriminate.
  - intros i w l p w' Hw Hacc d [= <-]. simpl.
    apply detect_window_effects in Hw as (evs & Htr & _ & Hev & _).
    exists evs, []. rewrite Hev. simpl.
    replace (i - i + 1) with 1 by lia. rewrite seqZ_one.
    repeat split; auto. lia.
  - intros i w l p w' Hw Hacc Hlt IH d Hd.
    destruct (IH d Hd) as (evs2 & before & Htr2 & Hev2 & Hkeys & Hle & Hstop & Hbefore).
    apply detect_window_effects in Hw as (evs1 & Htr1 & _ & Hev1 & _).
    exists (evs1 ++ evs2), ((i, (l, p)) :: before).
    rewrite evaluated_app, Hev1.
    split; [rewrite Htr2, Htr1, app_assoc; reflexivity|].
    split; [rewrite Hev2; reflexivity|].
    split.
    { rewrite fmap_app, Hkeys, (seqZ_cons i) by lia.
      replace (Z.succ i) with (i + 1) by lia.
      replace (Z.pred (iterations d - i + 1)) with (iterations d - (i + 1) + 1) by lia.
      reflexivity. }
    split; [lia|]. split; [exact Hstop|].
    constructor; [exact Hacc|exact Hbefore].
Qed.

(** The exceptions of one window: those of the calls it makes, or IndexError
    when the offsets do not reach the iteration.  Deleting the temporary file
    never fails. *)
Lemma detect_window_errors (i : Z) (w w' : World) (e : PyError) :
  1 ≤ i →
  detect_window env audio offsets i w = (Err e, w') →
  (e = IndexError ∧ Z.of_nat (length offsets) < i)
  ∨ e ∈ ExternalError <$> [CallLoadModel; CallSlice; CallExport; CallLoadAudio;
                           CallInference].
Proof.
  intros Hi. rewrite detect_window_run.
  destruct (detector_model_loads env i).
  - destruct (Py.getitem offsets (i - 1)) as [s|e'] eqn:Hget.
    + destruct (window env i s); intros [= <- _]; right; set_solver.
    + intros [= <- _]. left. pose proof (getitem_error _ _ _ Hget) as ->.
      split; [reflexivity|].
      destruct (Z_lt_le_dec (i - 1) (Z.of_nat (length offsets))) as [Hlt|Hge]; [|lia].
      destruct (lookup_lt_is_Some_2 offsets (Z.to_nat (i - 1))) as [s Hs]; [lia|].
      rewrite (getitem_lookup _ _ s) in Hget by (assumption || lia). discriminate.
  - intros [= <- _]. right. set_solver.
Qed.

Lemma run_errors (i : Z) (w : World) (e : PyError) :
  1 ≤ i →
  (run i w).1 = Err e →
  (e = IndexError ∧ Z.of_nat (length offsets) < Z.max i max_iterations)
  ∨ e ∈ ExternalError <$> [CallLoadModel; CallSlice; CallExport; CallLoadAudio;
                           CallInference].
Proof.
  revert e. revert i w.
  apply (detect_language_run_ind env audio offsets min_probability max_iterations
    (λ i w out, ∀ e, 1 ≤ i → out.1 = Err e →
      (e = IndexError ∧ Z.of_nat (length offsets) < Z.max i max_iterations)
      ∨ e ∈ ExternalError <$> [CallLoadModel; CallSlice; CallExport; CallLoadAudio;
                               CallInference])).
  - intros i w e w' Hw e' Hi [= <-].
    destruct (detect_window_errors i w w' e Hi Hw) as [[-> Hlen]|Hext];
      [left; split; [reflexivity|lia]|right; exact Hext].
  - intros i w l p w' _ _ e _ He. discriminate.
  - intros i w l p w' _ _ Hlt IH e Hi He.
    destruct (IH e ltac:(lia) He) as [[-> Hlen]|Hext];
      [left; split; [reflexivity|lia]|right; exact Hext].
Qed.

End RunFacts.

(** Whenever the detector returns, the result is the last window it
    evaluated: it evaluated the windows 1 to [iterations] in order, the last
    one meets the threshold or the bound, and every window before it was below
    the threshold and below the bound.  Nothing is assumed about the
    libraries. *)
Theorem detector_result_is_last_evaluated {Segments : Type} (env : Env Segments)
    (audio : Path) (offsets : list Z) (min_probability : float)
    (max_iterations : Z) (w : World) (d : DetectionResult) :
  let out := detect_language env audio offsets min_probability max_iterations 1 w in
  out.1 = Ok d →
  ∃ evs before,
    trace out.2 = trace w ++ evs
    ∧ evaluated evs = before ++ [(iterations d, (language d, probability d))]
    ∧ fst <$> evaluated evs = seqZ 1 (iterations d)
    ∧ 1 ≤ iterations d
    ∧ (ge_float (probability d) min_probability = true
       ∨ max_iterations ≤ iterations d)
    ∧ Forall (λ kp, ge_float kp.2.2 min_probability = false ∧ kp.1 < max_iterations)
        before.
Proof.
  intros out Hd. subst out.
  destruct (run_result env audio offsets min_probability max_iterations 1 w d Hd)
    as (evs & before & Htr & Hev & Hkeys & Hle & Hstop & Hbefore).
  exists evs, before. split; [exact Htr|]. split; [exact Hev|].
  split; [rewrite Hkeys; f_equal; lia|]. split; [exact Hle|]. split.
  - unfold accepts in Hstop. apply orb_true_iff in Hstop as [H|H].
    + left. exact H.
    + right. apply Z.leb_le. exact H.
  - revert Hbefore. apply List.Forall_impl. intros kp Hkp.
    apply (rejected_below_bound min_probability max_iterations). exact Hkp.
Qed.

Lemma detector_result_is_last_evaluated_witness :
  ∃ evs before,
    trace (detect_language three_windows_env clip [0; 35000; 70000] 0.5 5 1
             empty_world).2 = trace empty_world ++ evs
    ∧ evaluated evs = before ++ [(2, ("en"%string, 0.6%float))]
    ∧ fst <$> evaluated evs = seqZ 1 2
    ∧ 1 ≤ 2
    ∧ (ge_float 0.6 0.5 = true ∨ 5 ≤ 2)
    ∧ Forall (λ kp, ge_float kp.2.2 0.5 = false ∧ kp.1 < 5) before.
Proof.
  exact (detector_result_is_last_evaluated three_windows_env clip [0; 35000; 70000]
           0.5 5 empty_world
           {| language := "en"; probability := 0.6; iterations := 2 |}
           ltac:(vm_compute; reflexivity)).
Defined.

(** The detector raises only the exceptions of its own library calls and
    IndexError; deleting the temporary file never raises.  IndexError means
    that the offsets are fewer than the iterations the bound allows (fewer than
    one when the bound is below 1): with at least [max(1, max_iterations)]
    offsets it is never raised. *)
Theorem detector_exceptions {Segments : Type} (env : Env Segments)
    (audio : Path) (offsets : list Z) (min_probability : float)
    (max_iterations : Z) (w : World) (e : PyError) :
  let out := detect_language env audio offsets min_probability max_iterations 1 w in
  out.1 = Err e →
  e ≠ FileNotFoundError
  ∧ (e = IndexError
     ∨ e ∈ ExternalError <$> [CallLoadModel; CallSlice; CallExport; CallLoadAudio;
                              CallInference])
  ∧ (e = IndexError → Z.of_nat (length offsets) < Z.max 1 max_iterations).
Proof.
  intros out He. subst out.
  destruct (run_errors env audio offsets min_probability max_iterations 1 w e
              ltac:(lia) He) as [[-> Hlen]|Hext].
  - split; [discriminate|]. split; [left; reflexivity|]. intros _. exact Hlen.
  - assert (Hcall : ∃ c, e = ExternalError c).
    { apply list_elem_of_fmap in Hext as (c & -> & _). exists c. reflexivity. }
    destruct Hcall as [c ->].
    split; [discriminate|]. split; [right; exact Hext|]. discriminate.
Qed.

Lemma detector_exceptions_witness :
  IndexError ≠ FileNotFoundError
  ∧ (IndexError = IndexError
     ∨ IndexError ∈ ExternalError <$> [CallLoadModel; CallSlice; CallExport;
                                       CallLoadAudio; CallInference])
  ∧ (IndexError = IndexError → Z.of_nat (length [0]) < Z.max 1 3).
Proof.
  exact (detector_exceptions three_windows_env clip [0] 0.95 3 empty_world
           IndexError ltac:(vm_compute; reflexivity)).
Defined.

(** With a bound of 1 or less (0 and negative bounds included) the detector
    still runs one detection and no more, and returns the first window
    whatever its probability. *)
Theorem detector_single_try {Segments : Type} (env : Env Segments)
    (audio : Path) (offsets : list Z) (min_probability : float)
    (max_iterations : Z) (w : World) :
  max_iterations ≤ 1 →
  let out := detect_language env audio offsets min_probability max_iterations 1 w in
  ∃ evs,
    trace out.2 = trace w ++ evs
    ∧ entered evs = [1]
    ∧ ∀ s l p,
        detector_model_loads env 1 = true →
        offsets !! 0%nat = Some s →
        window env 1 s = Detected l p →
        out.1 = Ok {| language := l; probability := p; iterations := 1 |}
        ∧ evaluated evs = [(1, (l, p))].
Proof.
  intros Hmax out. subst out.
  destruct (run_depth env audio offsets min_probability max_iterations 1 w)
    as (evs & n & Htr & Hent & _ & _ & _).
  rewrite detect_language_step in Htr |- *.
  destruct (detect_window env audio offsets 1 w) as [[[l p]|e] w'] eqn:Hw.
  - assert (Hacc : accepts min_probability max_iterations p 1 = true).
    { unfold accepts. apply orb_true_iff. right. apply Z.leb_le. exact Hmax. }
    rewrite Hacc in Htr |- *. simpl in *.
    pose proof Hw as Hw'.
    apply detect_window_effects in Hw' as (evs' & Htr' & Hent' & Hev' & _).
    rewrite Htr in Htr'. apply app_inv_head in Htr' as ->.
    exists evs'. split; [exact Htr|]. split; [exact Hent'|].
    intros s l' p' Hload Hs Hwin.
    rewrite (window_identified env audio offsets 1 s l' p' w Hload ltac:(lia) Hs Hwin)
      in Hw.
    injection Hw as <- <- _. split; [reflexivity|exact Hev'].
  - simpl in *. pose proof Hw as Hw'.
    apply detect_window_effects in Hw' as (evs' & Htr' & Hent' & _).
    rewrite Htr in Htr'. apply app_inv_head in Htr' as ->.
    exists evs'. split; [exact Htr|]. split; [exact Hent'|].
    intros s l p Hload Hs Hwin.
    rewrite (window_identified env audio offsets 1 s l p w Hload ltac:(lia) Hs Hwin)
      in Hw. discriminate.
Qed.

Lemma detector_single_try_witness :
  0 ≤ 1
  ∧ ∃ evs,
      trace (detect_language three_windows_env clip [0] 0.95 0 1 empty_world).2
      = trace empty_world ++ evs
      ∧ entered evs = [1]
      ∧ ∀ s l p,
          detector_model_loads three_windows_env 1 = true →
          [0] !! 0%nat = Some s →
          window three_windows_env 1 s = Detected l p →
          (detect_language three_windows_env clip [0] 0.95 0 1 empty_world).1
          = Ok {| language := l; probability := p; iterations := 1 |}
          ∧ evaluated evs = [(1, (l, p))].
Proof.
  assert (H : 0 ≤ 1) by lia.
  split; [exact H|].
  exact (detector_single_try three_windows_env clip [0] 0.95 0 empty_world H).
Defined.

(** A detection run neither deletes nor overwrites a temporary file that
    existed before it: each file it creates gets a name that is not in use,
    and that is the only file it deletes. *)
Theorem detector_preserves_existing_files {Segments : Type} (env : Env Segments)
    (audio : Path) (offsets : list Z) (min_probability : float)
    (max_iterations : Z) (w : World) (name : nat) (suffix : string) :
  tmpdir w !! name = Some suffix →
  tmpdir (detect_language env audio offsets min_probability max_iterations 1 w).2
    !! name = Some suffix.
Proof.
  intros Hname.
  destruct (run_cleanup env audio offsets min_probability max_iterations 1 w)
    as (evs & _ & _ & _ & Hdir).
  destruct (detect_language env audio offsets min_probability max_iterations 1 w).1
    as [d|e].
  - destruct Hdir as (-> & _). exact Hname.
  - destruct (leaves_file e).
    + destruct Hdir as (f & _ & Hfresh & ->).
      rewrite lookup_insert_ne; [exact Hname|]. intros Heq. congruence.
    + destruct Hdir as (-> & _). exact Hname.
Qed.

Lemma detector_preserves_existing_files_witness :
  tmpdir {| tmpdir := {[ 0%nat := ".wav"%string ]}; trace := [] |} !! 0%nat
  = Some ".wav"%string
  ∧ tmpdir (detect_language undecodable_env clip [0] 0 1 1
              {| tmpdir := {[ 0%nat := ".wav"%string ]}; trace := [] |}).2
      !! 0%nat = Some ".wav"%string.
Proof.
  assert (H : tmpdir {| tmpdir := {[ 0%nat := ".wav"%string ]}; trace := [] |}
              !! 0%nat = Some ".wav"%string) by reflexivity.
  split; [exact H|].
  exact (detector_preserves_existing_files undecodable_env clip [0] 0 1
           {| tmpdir := {[ 0%nat := ".wav"%string ]}; trace := [] |}
           0%nat ".wav" H).
Defined.

(** When the offsets are fewer than the bound allows and every window they
    give is identified below the threshold, the detector evaluates all of
    them and then raises IndexError at the first iteration without an offset:
    no result comes back, not even the last window tried. *)
Theorem detector_runs_out_of_offsets {Segments : Type} (env : Env Segments)
    (audio : Path) (offsets : list Z) (min_probability : float)
    (max_iterations : Z) (pairs : Z → string * float) (w : World) :
  let n := Z.of_nat (length offsets) in
  n < max_iterations →
  (∀ k, 1 ≤ k ≤ n + 1 → detector_model_loads env k = true) →
  (∀ k s, 1 ≤ k ≤ n → offsets !! Z.to_nat (k - 1) = Some s →
          window env k s = Detected (pairs k).1 (pairs k).2) →
  (∀ k, 1 ≤ k ≤ n → ge_float (pairs k).2 min_probability = false) →
  let out := detect_language env audio offsets min_probability max_iterations 1 w in
  out.1 = Err IndexError
  ∧ ∃ evs,
      trace out.2 = trace w ++ evs
      ∧ evaluated evs = (λ j, (j, pairs j)) <$> seqZ 1 n
      ∧ entered evs = seqZ 1 (n + 1).
Proof.
  intros n Hshort Hload Hwin Hlow out. subst out.
  assert (Hidentified : ∀ i w0 w' r, 1 ≤ i ≤ n →
            detect_window env audio offsets i w0 = (r, w') → r = Ok (pairs i)).
  { intros i w0 w' r Hi.
    apply (window_detected env audio offsets n pairs); [lia| |exact Hwin|exact Hi].
    intros k Hk. apply Hload. lia. }
  assert (Hbeyond : ∀ w0, detect_window env audio offsets (n + 1) w0
            = (Err IndexError,
               {| tmpdir := tmpdir w0; trace := trace w0 ++ [EvLoadModel (n + 1)] |})).
  { intros w0. rewrite detect_window_run, Hload, getitem_beyond by lia. reflexivity. }
  enough (Hgen : ∀ i w0, 1 ≤ i ≤ n + 1 →
            (detect_language env audio offsets min_probability max_iterations i w0).1
            = Err IndexError
            ∧ ∃ evs,
                trace (detect_language env audio offsets min_probability
                         max_iterations i w0).2 = trace w0 ++ evs
                ∧ evaluated evs = (λ j, (j, pairs j)) <$> seqZ i (n - i + 1)
                ∧ entered evs = seqZ i (n - i + 2)).
  { destruct (Hgen 1 w ltac:(lia)) as (Herr & evs & Htr & Hev & Hent).
    split; [exact Herr|]. exists evs. split; [exact Htr|].
    replace (n - 1 + 1) with n in Hev by lia.
    replace (n - 1 + 2) with (n + 1) in Hent by lia. split; assumption. }
  apply (detect_language_run_ind env audio offsets min_probability max_iterations
    (λ i w0 out, 1 ≤ i ≤ n + 1 →
      out.1 = Err IndexError
      ∧ ∃ evs, trace out.2 = trace w0 ++ evs
               ∧ evaluated evs = (λ j, (j, pairs j)) <$> seqZ i (n - i + 1)
               ∧ entered evs = seqZ i (n - i + 2))).
  - intros i w0 e w' Hw Hi.
    destruct (Z.eq_dec i (n + 1)) as [->|Hne].
    + rewrite Hbeyond in Hw. injection Hw as <- <-. simpl.
      split; [reflexivity|]. exists [EvLoadModel (n + 1)].
      replace (n - (n + 1) + 1) with 0 by lia.
      replace (n - (n + 1) + 2) with 1 by lia. rewrite seqZ_one.
      repeat split.
    + pose proof (Hidentified i w0 w' (Err e) ltac:(lia) Hw). discriminate.
  - intros i w0 l p w' Hw Hacc Hi.
    destruct (Z.eq_dec i (n + 1)) as [->|Hne].
    + rewrite Hbeyond in Hw. discriminate.
    + pose proof (Hidentified i w0 w' _ ltac:(lia) Hw) as [= Hp].
      unfold accepts in Hacc. apply orb_true_iff in Hacc as [Hge|Hmax].
      * pose proof (Hlow i ltac:(lia)) as Hlowi. rewrite <- Hp in Hlowi.
        simpl in Hlowi. congruence.
      * apply Z.leb_le in Hmax. lia.
  - intros i w0 l p w' Hw Hacc Hlt IH Hi.
    destruct (Z.eq_dec i (n + 1)) as [->|Hne].
    + rewrite Hbeyond in Hw. discriminate.
    + pose proof (Hidentified i w0 w' _ ltac:(lia) Hw) as [= Hp].
      apply detect_window_effects in Hw as (evs1 & Htr1 & Hent1 & Hev1 & _).
      destruct IH as (Herr & evs2 & Htr2 & Hev2 & Hent2); [lia|].
      split; [exact Herr|]. exists (evs1 ++ evs2).
      split; [rewrite Htr2, Htr1, app_assoc; reflexivity|].
      rewrite evaluated_app, entered_app, Hev1, Hev2, Hent1, Hent2, Hp.
      rewrite (seqZ_cons i (n - i + 1)), (seqZ_cons i (n - i + 2)) by lia.
      replace (Z.succ i) with (i + 1) by lia.
      replace (Z.pred (n - i + 1)) with (n - (i + 1) + 1) by lia.
      replace (Z.pred (n - i + 2)) with (n - (i + 1) + 2) by lia.
      split; reflexivity.
Qed.

Lemma detector_runs_out_of_offsets_witness :
  (detect_language three_windows_env clip [0; 35000] 0.95 3 1 empty_world).1
  = Err IndexError
  ∧ ∃ evs,
      trace (detect_language three_windows_env clip [0; 35000] 0.95 3 1
               empty_world).2 = trace empty_world ++ evs
      ∧ evaluated evs = (λ j, (j, three_pairs j)) <$> seqZ 1 (Z.of_nat 2)
      ∧ entered evs = seqZ 1 (Z.of_nat 2 + 1).
Proof.
  apply (detector_runs_out_of_offsets three_windows_env clip [0; 35000] 0.95 3
           three_pairs empty_world).
  - simpl. lia.
  - intros k _. reflexivity.
  - intros k s _ _. reflexivity.
  - intros k Hk. simpl in Hk.
    assert (Hcases : k = 1 ∨ k = 2) by lia.
    destruct Hcases as [->| ->]; reflexivity.
Defined.

(** ** Prediction: transcription, stages and output *)

Section PredictionRuns.
Context {Segments : Type} (env : Env Segments).

(** The transcription, by what the libraries do. *)
Lemma run_transcription_run (audio_file : Path) (lang : option string) (w : World) :
  run_transcription env audio_file lang w =
    if asr_model_loads env lang then
      if audio_loads env audio_file then
        (match transcribe env audio_file lang with
         | Some result => Ok result
         | None => Err (ExternalError CallTranscribe)
         end,
         {| tmpdir := tmpdir w; trace := trace w ++ [EvTranscribe lang] |})
      else (Err (ExternalError CallLoadAudio), w)
    else (Err (ExternalError CallLoadModel), w).
Proof.
  unfold run_transcription. run_monad.
  destruct (asr_model_loads env lang); simpl; [|reflexivity].
  destruct (audio_loads env audio_file); simpl; [|reflexivity].
  destruct (transcribe env audio_file lang); reflexivity.
Qed.

(** The stage after the transcription, by the gates of lines 158-162. *)
Lemma post_process_cases (align_output diarization : bool)
    (result : Transcription Segments) (w : World) :
  post_process env align_output diarization result w =
    if has_align_model env (result_language result) then
      if align_output then
        (match whisperx_align env result with
         | Some r => Ok r
         | None => Err (ExternalError CallAlign)
         end,
         {| tmpdir := tmpdir w; trace := trace w ++ [EvAlign] |})
      else if diarization then
        (match whisperx_diarize env result with
         | Some r => Ok r
         | None => Err (ExternalError CallDiarize)
         end,
         {| tmpdir := tmpdir w; trace := trace w ++ [EvDiarize] |})
      else (Ok result, w)
    else (Ok result, w).
Proof.
  unfold post_process, align, diarize. run_monad.
  destruct (has_align_model env (result_language result)); [|reflexivity].
  destruct align_output.
  - destruct (whisperx_align env result); reflexivity.
  - destruct diarization; [|reflexivity].
    destruct (whisperx_diarize env result); reflexivity.
Qed.

(** [predict], phase by phase. *)
Lemma predict_phases (audio_file : Path) (language : option string)
    (min_probability : float) (max_tries : Z) (align_output diarization : bool)
    (w : World) :
  predict env audio_file language min_probability max_tries align_output diarization w
  = match resolve_language env audio_file language min_probability max_tries w with
    | (Ok lang, w1) =>
        match run_transcription env audio_file lang w1 with
        | (Ok result, w2) =>
            match post_process env align_output diarization result w2 with
            | (Ok result', w3) =>
                (Ok {| segments := result_segments result';
                       detected_language := result_language result |}, w3)
            | (Err e, w3) => (Err e, w3)
            end
        | (Err e, w2) => (Err e, w2)
        end
    | (Err e, w1) => (Err e, w1)
    end.
Proof.
  unfold predict, mbind, M_bind, bind, mret, M_ret, ret.
  destruct (resolve_language env audio_file language _ _ w) as [[lang|e] w1];
    [|reflexivity].
  destruct (run_transcription env audio_file lang w1) as [[result|e] w2];
    [|reflexivity].
  destruct (post_process env align_output diarization result w2) as [[r'|e] w3];
    reflexivity.
Qed.

(** Language resolution returns the given language untouched, or else a
    detected one; when it returns, the temporary directory is as before. *)
Lemma resolve_language_value (audio_file : Path) (language lang : option string)
    (min_probability : float) (max_tries : Z) (w w1 : World) :
  resolve_language env audio_file language min_probability max_tries w = (Ok lang, w1) →
  tmpdir w1 = tmpdir w
  ∧ (∀ l, language = Some l → lang = Some l ∧ w1 = w)
  ∧ (language = None → ∃ l, lang = Some l).
Proof.
  destruct language as [l|].
  - intros [= <- <-]. split; [reflexivity|]. split; [|discriminate].
    intros l' [= <-]. split; reflexivity.
  - destruct (audio_length env audio_file) as [d|] eqn:Hlen.
    + destruct (resolve_language_run env audio_file min_probability max_tries d w Hlen)
        as (offsets & _ & _ & ->).
      destruct (run_cleanup env audio_file offsets min_probability
                  (Z.min max_tries (Z.of_N d / 30000)) 1
                  {| tmpdir := tmpdir w;
                     trace := trace w ++ [EvSegmentsStarts offsets] |})
        as (evs & _ & _ & _ & Hdir).
      destruct (detect_language _ _ _ _ _ _ _) as [[r|e] w2]; [|discriminate].
      simpl in Hdir. destruct Hdir as (Hdir & _).
      intros [= <- <-]. simpl. split; [exact Hdir|]. split; [discriminate|].
      intros _. eexists. reflexivity.
    + unfold resolve_language, get_audio_duration.
      unfold mbind, M_bind, bind, external_value, raise. rewrite Hlen. discriminate.
Qed.

End PredictionRuns.

Ltac calls_subset :=
  let c := fresh "c" in
  let Hc := fresh "Hc" in
  intros c Hc; rewrite ?elem_of_cons, ?elem_of_nil in Hc;
  rewrite ?elem_of_cons; intuition auto.

Lemma external_errors_within (e : PyError) (calls calls' : list ExternalCall) :
  e ∈ ExternalError <$> calls → calls ⊆ calls' → e ∈ ExternalError <$> calls'.
Proof.
  intros (c & -> & Hc)%list_elem_of_fmap Hsub.
  apply list_elem_of_fmap. exists c. split; [reflexivity|]. apply Hsub, Hc.
Qed.

Section PredictionEffects.
Context {Segments : Type} (env : Env Segments).

Lemma run_transcription_effects (audio_file : Path) (lang : option string)
    (w w2 : World) (r : res (Transcription Segments)) :
  run_transcription env audio_file lang w = (r, w2) →
  tmpdir w2 = tmpdir w
  ∧ (∃ evs, trace w2 = trace w ++ evs ∧ Forall (λ ev, ev = EvTranscribe lang) evs)
  ∧ (∀ e, r = Err e →
          e ∈ ExternalError <$> [CallLoadModel; CallLoadAudio; CallTranscribe])
  ∧ (∀ result, r = Ok result → transcribe env audio_file lang = Some result).
Proof.
  rewrite run_transcription_run.
  destruct (asr_model_loads env lang).
  - destruct (audio_loads env audio_file).
    + destruct (transcribe env audio_file lang) as [result|]; intros [= <- <-];
        (split; [reflexivity|]);
        (split; [exists [EvTranscribe lang]; split;
                   [reflexivity|constructor; [reflexivity|constructor]]|]);
        (split; [intros e [= <-] || (intros e; discriminate)|]).
      * intros r [= <-]. reflexivity.
      * set_solver.
      * intros r; discriminate.
    + intros [= <- <-]. split; [reflexivity|].
      split; [exists []; rewrite app_nil_r; split; [reflexivity|constructor]|].
      split; [intros e [= <-]; set_solver|intros r; discriminate].
  - intros [= <- <-]. split; [reflexivity|].
    split; [exists []; rewrite app_nil_r; split; [reflexivity|constructor]|].
    split; [intros e [= <-]; set_solver|intros r; discriminate].
Qed.

Lemma post_process_effects (align_output diarization : bool)
    (result : Transcription Segments) (w w3 : World)
    (r : res (Transcription Segments)) :
  post_process env align_output diarization result w = (r, w3) →
  tmpdir w3 = tmpdir w
  ∧ (∃ evs, trace w3 = trace w ++ evs
            ∧ Forall (λ ev, ev = EvAlign ∨ ev = EvDiarize) evs)
  ∧ (∀ e, r = Err e → e ∈ ExternalError <$> [CallAlign; CallDiarize]).
Proof.
  rewrite post_process_cases.
  destruct (has_align_model env (result_language result)).
  - destruct align_output.
    + intros [= <- <-]. split; [reflexivity|].
      split; [exists [EvAlign]; split;
                [reflexivity|constructor; [left; reflexivity|constructor]]|].
      destruct (whisperx_align env result); [intros e; discriminate|].
      intros e [= <-]. set_solver.
    + destruct diarization.
      * intros [= <- <-]. split; [reflexivity|].
        split; [exists [EvDiarize]; split;
                  [reflexivity|constructor; [right; reflexivity|constructor]]|].
        destruct (whisperx_diarize env result); [intros e; discriminate|].
        intros e [= <-]. set_solver.
      * intros [= <- <-]. split; [reflexivity|].
        split; [exists []; rewrite app_nil_r; split; [reflexivity|constructor]|].
        intros e; discriminate.
  - intros [= <- <-]. split; [reflexivity|].
    split; [exists []; rewrite app_nil_r; split; [reflexivity|constructor]|].
    intros e; discriminate.
Qed.

End PredictionEffects.

(** With the language given, the prediction makes no detection: it asks for
    no window, creates no temporary file, raises only the exceptions of the
    transcription and of the stage after it, and ignores the detection
    parameters. *)
Theorem prediction_with_language_skips_detection {Segments : Type}
    (env : Env Segments) (audio_file : Path) (l : string)
    (language_detection_min_prob : float) (language_detection_max_tries : Z)
    (align_output diarization : bool) (w : World) :
  let out := predict env audio_file (Some l) language_detection_min_prob
               language_detection_max_tries align_output diarization w in
  tmpdir out.2 = tmpdir w
  ∧ (∃ evs, trace out.2 = trace w ++ evs
            ∧ Forall (λ ev, ev = EvTranscribe (Some l) ∨ ev = EvAlign ∨ ev = EvDiarize)
                evs)
  ∧ (∀ e, out.1 = Err e →
          e ∈ ExternalError <$> [CallLoadModel; CallLoadAudio; CallTranscribe;
                                 CallAlign; CallDiarize])
  ∧ (∀ min_prob' max_tries',
       predict env audio_file (Some l) min_prob' max_tries' align_output diarization w
       = out).
Proof.
  intros out. subst out.
  assert (Hsame : ∀ min_prob' max_tries',
    predict env audio_file (Some l) min_prob' max_tries' align_output diarization w
    = predict env audio_file (Some l) language_detection_min_prob
        language_detection_max_tries align_output diarization w)
    by (intros; rewrite !predict_with_language; reflexivity).
  rewrite predict_with_language.
  rewrite predict_with_language in Hsame.
  destruct (run_transcription env audio_file (Some l) w) as [[result|e] w2] eqn:Hrun;
    apply run_transcription_effects in Hrun
      as (Hdir1 & (evs1 & Htr1 & Hevs1) & Herr1 & _).
  - destruct (post_process env align_output diarization result w2)
      as [[result'|e] w3] eqn:Hpost;
      apply post_process_effects in Hpost as (Hdir2 & (evs2 & Htr2 & Hevs2) & Herr2);
      simpl.
    + split; [congruence|]. split.
      * exists (evs1 ++ evs2). split; [rewrite Htr2, Htr1, app_assoc; reflexivity|].
        apply Forall_app. split.
        -- revert Hevs1. apply List.Forall_impl. intros ev ->. left. reflexivity.
        -- revert Hevs2. apply List.Forall_impl. intros ev Hev. right. exact Hev.
      * split; [intros e; discriminate|exact Hsame].
    + split; [congruence|]. split.
      * exists (evs1 ++ evs2). split; [rewrite Htr2, Htr1, app_assoc; reflexivity|].
        apply Forall_app. split.
        -- revert Hevs1. apply List.Forall_impl. intros ev ->. left. reflexivity.
        -- revert Hevs2. apply List.Forall_impl. intros ev Hev. right. exact Hev.
      * split; [|exact Hsame]. intros e' [= <-].
        apply (external_errors_within e [CallAlign; CallDiarize]
                 [CallLoadModel; CallLoadAudio; CallTranscribe; CallAlign; CallDiarize]
                 (Herr2 e eq_refl)).
        calls_subset.
  - simpl. split; [exact Hdir1|]. split.
    + exists evs1. split; [exact Htr1|].
      revert Hevs1. apply List.Forall_impl. intros ev ->. left. reflexivity.
    + split; [|exact Hsame]. intros e' [= <-].
      apply (external_errors_within e [CallLoadModel; CallLoadAudio; CallTranscribe]
               [CallLoadModel; CallLoadAudio; CallTranscribe; CallAlign; CallDiarize]
               (Herr1 e eq_refl)).
      calls_subset.
Qed.



(** A stage that raises takes the prediction with it: when alignment is
    selected and raises, or diarization is selected and raises, the prediction
    raises that exception and does not fall back on the transcription it
    already has. *)
Theorem prediction_stage_failure_propagates {Segments : Type} (env : Env Segments)
    (audio_file : Path) (language lang : option string)
    (language_detection_min_prob : float) (language_detection_max_tries : Z)
    (align_output diarization : bool) (w w1 w2 : World)
    (result : Transcription Segments) :
  resolve_language env audio_file language language_detection_min_prob
    language_detection_max_tries w = (Ok lang, w1) →
  run_transcription env audio_file lang w1 = (Ok result, w2) →
  has_align_model env (result_language result) = true →
  let out := predict env audio_file language language_detection_min_prob
               language_detection_max_tries align_output diarization w in
  (align_output = true → whisperx_align env result = None →
   out = (Err (ExternalError CallAlign),
          {| tmpdir := tmpdir w2; trace := trace w2 ++ [EvAlign] |}))
  ∧ (align_output = false → diarization = true →
     whisperx_diarize env result = None →
     out = (Err (ExternalError CallDiarize),
            {| tmpdir := tmpdir w2; trace := trace w2 ++ [EvDiarize] |})).
Proof.
  intros Hres Hrun Hgate out. subst out.
  rewrite predict_phases, Hres, Hrun, post_process_cases, Hgate.
  split.
  - intros -> ->. reflexivity.
  - intros -> -> ->. reflexivity.
Qed.

Lemma prediction_stage_failure_propagates_witness :
  predict align_fails_env clip (Some "en"%string) 0 5 true false empty_world
  = (Err (ExternalError CallAlign),
     {| tmpdir := ∅; trace := [EvTranscribe (Some "en"%string); EvAlign] |}).
Proof.
  exact (proj1 (prediction_stage_failure_propagates align_fails_env clip
                  (Some "en"%string) (Some "en"%string) 0 5 true false
                  empty_world empty_world
                  {| tmpdir := ∅; trace := [EvTranscribe (Some "en"%string)] |}
                  {| result_segments := ["hello"%string]; result_language := "en" |}
                  eq_refl eq_refl eq_refl)
           eq_refl eq_refl).
Defined.

(** With [language_detection_max_tries] at 0 or below, a prediction without a
    language never returns, however long the audio is: the plan is empty and
    the detector, which always makes a first iteration, finds no offset. *)
Theorem prediction_without_tries_aborts {Segments : Type} (env : Env Segments)
    (audio_file : Path) (language_detection_min_prob : float)
    (language_detection_max_tries : Z) (align_output diarization : bool)
    (audio_duration_ms : N) (w : World) :
  audio_length env audio_file = Some audio_duration_ms →
  language_detection_max_tries ≤ 0 →
  let out := predict env audio_file None language_detection_min_prob
               language_detection_max_tries align_output diarization w in
  is_ok out.1 = false
  ∧ (detector_model_loads env 1 = true → out.1 = Err IndexError)
  ∧ tmpdir out.2 = tmpdir w
  ∧ trace out.2 = trace w ++ [EvSegmentsStarts []; EvLoadModel 1].
Proof.
  intros Hlen Hmax out. subst out.
  destruct (predict_detects_first env audio_file language_detection_min_prob
              language_detection_max_tries align_output diarization
              audio_duration_ms w Hlen) as (offsets & Hplan & _ & ->).
  rewrite plan_none in Hplan by lia. injection Hplan as <-.
  rewrite detect_language_step, detect_window_run, getitem_nil.
  destruct (detector_model_loads env 1); simpl; rewrite <- app_assoc;
    repeat split; auto; discriminate.
Qed.

Lemma prediction_without_tries_aborts_witness :
  audio_length three_windows_env clip = Some 100000%N
  ∧ 0 ≤ 0
  ∧ is_ok (predict three_windows_env clip None 0.5 0 false false empty_world).1
    = false
  ∧ (detector_model_loads three_windows_env 1 = true →
     (predict three_windows_env clip None 0.5 0 false false empty_world).1
     = Err IndexError)
  ∧ tmpdir (predict three_windows_env clip None 0.5 0 false false empty_world).2
    = tmpdir empty_world
  ∧ trace (predict three_windows_env clip None 0.5 0 false false empty_world).2
    = trace empty_world ++ [EvSegmentsStarts []; EvLoadModel 1].
Proof.
  assert (H : 0 ≤ 0) by lia.
  split; [reflexivity|]. split; [exact H|].
  exact (prediction_without_tries_aborts three_windows_env clip 0.5 0 false false
           100000 empty_world eq_refl H).
Defined.

(** The planner and the detector fit together: when at least one try is
    allowed, the audio is at least 30000 ms long and the windows of the plan
    are identified, the language resolution never runs out of offsets.  It
    returns the language of the first window [k] that meets the threshold or
    reaches the clamped number of tries, reports it with its probability and
    [k], and leaves the temporary directory as it found it. *)
Theorem prediction_detects_on_long_audio {Segments : Type} (env : Env Segments)
    (audio_file : Path) (language_detection_min_prob : float)
    (language_detection_max_tries : Z) (audio_duration_ms : N)
    (pairs : Z → string * float) (w : World) :
  audio_length env audio_file = Some audio_duration_ms →
  1 ≤ language_detection_max_tries →
  30000 ≤ Z.of_N audio_duration_ms →
  let tries :=
    clamped_tries language_detection_max_tries (Z.of_N audio_duration_ms) 30000 in
  (∀ k, 1 ≤ k ≤ tries → detector_model_loads env k = true) →
  (∀ k s, 1 ≤ k ≤ tries → window env k s = Detected (pairs k).1 (pairs k).2) →
  ∃ k w',
    1 ≤ k ≤ tries
    ∧ (ge_float (pairs k).2 language_detection_min_prob = true ∨ tries ≤ k)
    ∧ (∀ j, 1 ≤ j < k → ge_float (pairs j).2 language_detection_min_prob = false)
    ∧ resolve_language env audio_file None language_detection_min_prob
        language_detection_max_tries w = (Ok (Some (pairs k).1), w')
    ∧ tmpdir w' = tmpdir w
    ∧ list.last (trace w') = Some (EvDetected (pairs k).1 (pairs k).2 k).
Proof.
  intros Hlen Hmax Hlong tries Hload Hwin.
  assert (Hwhole : 1 ≤ Z.of_N audio_duration_ms / 30000)
    by (apply Z.div_le_lower_bound; lia).
  assert (Htries : 1 ≤ tries) by (unfold tries, clamped_tries; lia).
  destruct (resolve_language_run env audio_file language_detection_min_prob
              language_detection_max_tries audio_duration_ms w Hlen)
    as (offsets & _ & Hcount & Hres).
  fold (clamped_tries language_detection_max_tries (Z.of_N audio_duration_ms) 30000)
    in Hcount, Hres.
  fold tries in Hcount, Hres.
  set (w0 := {| tmpdir := tmpdir w; trace := trace w ++ [EvSegmentsStarts offsets] |})
    in Hres.
  destruct (run_first_accepted env audio_file offsets language_detection_min_prob
              tries pairs ltac:(lia) Hload
              (λ k s Hk _, Hwin k s Hk) 1 w0 ltac:(lia))
    as (k & Hk & Hstop & Hbefore & Hout & _).
  destruct (run_cleanup env audio_file offsets language_detection_min_prob tries 1 w0)
    as (evs & _ & _ & _ & Hdir).
  rewrite Hout in Hdir. destruct Hdir as (Hdir & _).
  destruct (detect_language env audio_file offsets language_detection_min_prob
              tries 1 w0) as [r w2].
  simpl in Hout, Hdir. subst r.
  eexists k, _. split; [exact Hk|]. split.
  { unfold accepts in Hstop. apply orb_true_iff in Hstop as [H|H];
      [left; exact H|right; apply Z.leb_le; exact H]. }
  split.
  { intros j Hj.
    apply (rejected_below_bound language_detection_min_prob tries _ j), Hbefore, Hj. }
  split; [exact Hres|]. split; [exact Hdir|]. simpl. apply last_snoc.
Qed.

Lemma prediction_detects_on_long_audio_witness :
  ∃ k w',
    1 ≤ k ≤ clamped_tries 5 (Z.of_N 100000) 30000
    ∧ (ge_float (three_pairs k).2 0.5 = true
       ∨ clamped_tries 5 (Z.of_N 100000) 30000 ≤ k)
    ∧ (∀ j, 1 ≤ j < k → ge_float (three_pairs j).2 0.5 = false)
    ∧ resolve_language three_windows_env clip None 0.5 5 empty_world
      = (Ok (Some (three_pairs k).1), w')
    ∧ tmpdir w' = tmpdir empty_world
    ∧ list.last (trace w')
      = Some (EvDetected (three_pairs k).1 (three_pairs k).2 k).
Proof.
  apply (prediction_detects_on_long_audio three_windows_env clip 0.5 5 100000
           three_pairs empty_world).
  - reflexivity.
  - lia.
  - simpl. lia.
  - intros k _. reflexivity.
  - intros k s _. reflexivity.
Defined.

(** A prediction that returns a result leaves no temporary file behind and
    deletes none that was there: the temporary directory is what it was
    before the call. *)
Theorem prediction_success_restores_tmpdir {Segments : Type} (env : Env Segments)
    (audio_file : Path) (language : option string)
    (language_detection_min_prob : float) (language_detection_max_tries : Z)
    (align_output diarization : bool) (w : World) :
  let out := predict env audio_file language language_detection_min_prob
               language_detection_max_tries align_output diarization w in
  is_ok out.1 = true → tmpdir out.2 = tmpdir w.
Proof.
  intros out. subst out. rewrite predict_phases.
  destruct (resolve_language env audio_file language _ _ w) as [[lang|e] w1] eqn:Hres;
    [|discriminate].
  apply resolve_language_value in Hres as (Hdir0 & _).
  destruct (run_transcription env audio_file lang w1) as [[result|e] w2] eqn:Hrun;
    [|discriminate].
  apply run_transcription_effects in Hrun as (Hdir1 & _).
  destruct (post_process env align_output diarization result w2)
    as [[result'|e] w3] eqn:Hpost; [|discriminate].
  apply post_process_effects in Hpost as (Hdir2 & _).
  intros _. simpl. congruence.
Qed.

Lemma prediction_success_restores_tmpdir_witness :
  is_ok (predict three_windows_env clip None 0.5 5 true false empty_world).1 = true
  ∧ tmpdir (predict three_windows_env clip None 0.5 5 true false empty_world).2
    = tmpdir empty_world.
Proof.
  assert (H : is_ok (predict three_windows_env clip None 0.5 5 true false
                       empty_world).1 = true) by (vm_compute; reflexivity).
  split; [exact H|].
  exact (prediction_success_restores_tmpdir three_windows_env clip None 0.5 5
           true false empty_world H).
Defined.

(** ** Set-up *)

Module SetupFacts.
Import Setup.

Lemma node_lookup (fs : gmap (list string) Node) (p : list string) (n : Node) :
  fs !! p = Some n → is_Some (node fs p).
Proof.
  intros Hp. destruct p as [|c [|c' p]]; simpl.
  - eexists; reflexivity.
  - destruct (decide (c = "." ∨ c = "..")); [eexists; reflexivity|].
    rewrite Hp. eexists; reflexivity.
  - rewrite Hp. eexists; reflexivity.
Qed.

Lemma node_absent (fs : gmap (list string) Node) (p : list string) :
  node fs p = None → fs !! p = None.
Proof.
  intros Hp. destruct (fs !! p) as [n|] eqn:Hfs; [|reflexivity].
  destruct (node_lookup fs p n Hfs) as [m Hm]. congruence.
Qed.

(** Where two maps agree, so does [node]. *)
Lemma node_agree (fs fs' : gmap (list string) Node) (p : list string) :
  fs' !! p = fs !! p → node fs' p = node fs p.
Proof.
  intros Hp. destruct p as [|c [|c' p]]; simpl; [reflexivity| |exact Hp].
  destruct (decide (c = "." ∨ c = "..")); [reflexivity|exact Hp].
Qed.

Lemma node_insert_ne (fs : gmap (list string) Node) (p q : list string) (n : Node) :
  p ≠ q → node (<[p := n]> fs) q = node fs q.
Proof. intros Hne. apply node_agree, lookup_insert_ne, Hne. Qed.

Lemma node_insert_new (fs : gmap (list string) Node) (p : list string) (n : Node) :
  node fs p = None → node (<[p := n]> fs) p = Some n.
Proof.
  intros Hp. destruct p as [|c [|c' p]]; simpl in *; [discriminate| |].
  - destruct (decide (c = "." ∨ c = "..")); [discriminate|].
    apply lookup_insert_eq.
  - apply lookup_insert_eq.
Qed.

Lemma adds_dirs_refl (name : list string) (fs : gmap (list string) Node) :
  adds_dirs_towards name fs fs.
Proof. intros q. left. reflexivity. Qed.

(** What was there stays there, as [node] sees it. *)
Lemma adds_dirs_node (name : list string) (fs fs' : gmap (list string) Node)
    (q : list string) :
  adds_dirs_towards name fs fs' →
  node fs' q = node fs q
  ∨ (node fs q = None ∧ node fs' q = Some Dir ∧ q `suffix_of` name).
Proof.
  intros Hadd. destruct (Hadd q) as [Heq|(Hnone & Hdir & Hsuf)].
  - left. apply node_agree, Heq.
  - right. split; [exact Hnone|]. split; [|exact Hsuf].
    destruct (node_lookup fs' q Dir Hdir) as [n Hn].
    destruct q as [|c [|c' q]]; simpl in *; [discriminate| |exact Hdir].
    destruct (decide (c = "." ∨ c = "..")); [discriminate|exact Hdir].
Qed.

Lemma adds_dirs_keeps (name : list string) (fs fs' : gmap (list string) Node)
    (q : list string) (n : Node) :
  adds_dirs_towards name fs fs' → node fs q = Some n → node fs' q = Some n.
Proof.
  intros Hadd Hq. destruct (adds_dirs_node name fs fs' q Hadd) as [->|(Hnone & _)];
    congruence.
Qed.

Lemma adds_dirs_trans (head name : list string) (fs fs1 fs' : gmap (list string) Node) :
  head `suffix_of` name →
  adds_dirs_towards head fs fs1 → adds_dirs_towards name fs1 fs' →
  adds_dirs_towards name fs fs'.
Proof.
  intros Hsuf H1 H2 q.
  destruct (H2 q) as [Heq2|(Hnone2 & Hdir2 & Hsuf2)].
  - destruct (H1 q) as [Heq1|(Hnone1 & Hdir1 & Hsuf1)].
    + left. congruence.
    + right. split; [exact Hnone1|]. split; [congruence|].
      etransitivity; eassumption.
  - right. split; [|split; [exact Hdir2|exact Hsuf2]].
    destruct (node fs q) as [n|] eqn:Hq; [|reflexivity].
    rewrite (adds_dirs_keeps head fs fs1 q n H1 Hq) in Hnone2. discriminate.
Qed.

(** The outcomes of the last step of [makedirs] under [exist_ok]. *)
Lemma mkdir_exist_ok_cases (name : list string) (fs fs' : gmap (list string) Node)
    (r : option OSError) :
  mkdir_exist_ok true name fs = (r, fs') →
  (r = None ∧ node fs name = None ∧ node fs (tail name) = Some Dir
   ∧ fs' = <[name := Dir]> fs)
  ∨ (r = None ∧ node fs name = Some Dir ∧ fs' = fs)
  ∨ (r = Some FileExistsError ∧ (∃ c, node fs name = Some (File c)) ∧ fs' = fs)
  ∨ (r ≠ None ∧ r ≠ Some FileExistsError ∧ node fs name = None
     ∧ node fs (tail name) ≠ Some Dir ∧ fs' = fs).
Proof.
  unfold mkdir_exist_ok, mkdir, isdir.
  destruct (node fs name) as [[|c]|] eqn:Hname; simpl.
  - rewrite Hname, bool_decide_eq_true_2 by reflexivity. simpl.
    intros [= <- <-]. right. left. auto.
  - rewrite Hname, bool_decide_eq_false_2 by discriminate. simpl.
    intros [= <- <-]. right. right. left. eauto.
  - destruct (node fs (tail name)) as [[|c]|] eqn:Hparent; simpl.
    + intros [= <- <-]. left. auto.
    + rewrite Hname, bool_decide_eq_false_2 by discriminate. simpl.
      intros [= <- <-]. right. right. right.
      repeat split; auto; discriminate.
    + rewrite Hname, bool_decide_eq_false_2 by discriminate. simpl.
      intros [= <- <-]. right. right. right.
      repeat split; auto; discriminate.
Qed.

Lemma mkdir_exist_ok_adds (name : list string) (fs fs' : gmap (list string) Node)
    (r : option OSError) :
  mkdir_exist_ok true name fs = (r, fs') → adds_dirs_towards name fs fs'.
Proof.
  intros Hm.
  destruct (mkdir_exist_ok_cases name fs fs' r Hm)
    as [(_ & Hnone & _ & ->)|[(_ & _ & ->)|[(_ & _ & ->)|(_ & _ & _ & _ & ->)]]];
    try apply adds_dirs_refl.
  intros q. destruct (decide (name = q)) as [<-|Hne].
  - right. split; [exact Hnone|]. split; [apply lookup_insert_eq|reflexivity].
  - left. apply lookup_insert_ne, Hne.
Qed.

(** [makedirs] only adds directories, all on the way to the path. *)
Lemma makedirs_adds (name : list string) (fs fs' : gmap (list string) Node)
    (r : option OSError) :
  makedirs name true fs = (r, fs') → adds_dirs_towards name fs fs'.
Proof.
  revert fs fs' r. induction name as [|t h IH]; intros fs fs' r; simpl.
  - intros [= <- <-]. apply adds_dirs_refl.
  - assert (Hsuf : h `suffix_of` t :: h) by (exists [t]; reflexivity).
    destruct (negb (bool_decide (h = [])) && negb (path_exists fs h)).
    + destruct (makedirs h true fs) as [[e|] fs1] eqn:Hh;
        pose proof (IH _ _ _ Hh) as Hadd1.
      * destruct (decide (e = FileExistsError)).
        -- destruct (decide (t = ".")).
           ++ intros [= <- <-]. eapply adds_dirs_trans;
                [exact Hsuf|exact Hadd1|apply adds_dirs_refl].
           ++ intros Hm. eapply adds_dirs_trans;
                [exact Hsuf|exact Hadd1|exact (mkdir_exist_ok_adds _ _ _ _ Hm)].
        -- intros [= <- <-]. eapply adds_dirs_trans;
             [exact Hsuf|exact Hadd1|apply adds_dirs_refl].
      * destruct (decide (t = ".")).
        -- intros [= <- <-]. eapply adds_dirs_trans;
             [exact Hsuf|exact Hadd1|apply adds_dirs_refl].
        -- intros Hm. eapply adds_dirs_trans;
             [exact Hsuf|exact Hadd1|exact (mkdir_exist_ok_adds _ _ _ _ Hm)].
    + apply mkdir_exist_ok_adds.
Qed.

Lemma not_suffix_of_tail (t : string) (h : list string) : ¬ (t :: h) `suffix_of` h.
Proof.
  intros [k Hk]. apply (f_equal length) in Hk.
  rewrite length_app in Hk. simpl in Hk. lia.
Qed.

Lemma condition_absent (fs : gmap (list string) Node) (h : list string) :
  negb (bool_decide (h = [])) && negb (path_exists fs h) = true →
  h ≠ [] ∧ node fs h = None.
Proof.
  intros [H1 H2]%andb_true_iff.
  apply negb_true_iff, bool_decide_eq_false in H1.
  apply negb_true_iff, bool_decide_eq_false in H2.
  split; [exact H1|]. destruct (node fs h); [|reflexivity].
  exfalso. apply H2. eexists; reflexivity.
Qed.

Lemma condition_present (fs : gmap (list string) Node) (h : list string) :
  negb (bool_decide (h = [])) && negb (path_exists fs h) = false →
  path_exists fs h = true.
Proof.
  intros [H1|H2]%andb_false_iff.
  - apply negb_false_iff, bool_decide_eq_true in H1. subst h. reflexivity.
  - apply negb_false_iff in H2. exact H2.
Qed.

(** A path that does not exist is not what makes [makedirs] raise
    FileExistsError. *)
Lemma makedirs_new_path (name : list string) (fs fs' : gmap (list string) Node)
    (r : option OSError) :
  node fs name = None → makedirs name true fs = (r, fs') →
  r ≠ Some FileExistsError.
Proof.
  revert fs fs' r. induction name as [|t h IH]; intros fs fs' r Hname; simpl.
  - intros [= <- <-]. discriminate.
  - assert (Hlast : ∀ fs1, adds_dirs_towards h fs fs1 →
              mkdir_exist_ok true (t :: h) fs1 = (r, fs') → r ≠ Some FileExistsError).
    { intros fs1 Hadd Hm.
      destruct (mkdir_exist_ok_cases _ _ _ _ Hm)
        as [(-> & _)|[(-> & _)|[(_ & (c & Hc) & _)|(_ & Hr & _)]]];
        try discriminate; try exact Hr.
      destruct (adds_dirs_node h fs fs1 (t :: h) Hadd) as [Heq|(_ & _ & Hsuf)].
      - congruence.
      - destruct (not_suffix_of_tail t h Hsuf). }
    destruct (negb (bool_decide (h = [])) && negb (path_exists fs h)) eqn:Hcond.
    + apply condition_absent in Hcond as [_ Hh].
      destruct (makedirs h true fs) as [[e|] fs1] eqn:Hrec.
      * destruct (decide (e = FileExistsError)) as [->|He].
        -- destruct (IH _ _ _ Hh Hrec). reflexivity.
        -- intros [= <- <-]. congruence.
      * destruct (decide (t = ".")).
        -- intros [= <- <-]. discriminate.
        -- apply Hlast. exact (makedirs_adds _ _ _ _ Hrec).
    + apply Hlast. apply adds_dirs_refl.
Qed.

(** After a successful [makedirs] the path is a directory and its parent
    exists. *)
Lemma makedirs_done (name : list string) (fs fs' : gmap (list string) Node) :
  "."%string ∉ name →
  makedirs name true fs = (None, fs') →
  node fs' name = Some Dir ∧ path_exists fs' (tail name) = true.
Proof.
  revert fs fs'. induction name as [|t h IH]; intros fs fs' Hdot; simpl.
  - discriminate.
  - assert (Ht : t ≠ "."%string) by (intros ->; apply Hdot; left).
    assert (Hh : "."%string ∉ h) by (intros Hin; apply Hdot; right; exact Hin).
    assert (Hlast : ∀ fs1, path_exists fs1 h = true →
              mkdir_exist_ok true (t :: h) fs1 = (None, fs') →
              node fs' (t :: h) = Some Dir ∧ path_exists fs' h = true).
    { intros fs1 Hex Hm.
      destruct (mkdir_exist_ok_cases _ _ _ _ Hm)
        as [(_ & Hnone & _ & ->)|[(_ & Hdir & ->)|[(Hr & _)|(Hr & _)]]];
        try discriminate; try (destruct Hr; reflexivity).
      - split; [apply node_insert_new, Hnone|].
        unfold path_exists in *. apply bool_decide_eq_true.
        apply bool_decide_eq_true in Hex.
        rewrite node_insert_ne; [exact Hex|].
        intros Heq. apply (f_equal length) in Heq. simpl in Heq. lia.
      - split; [exact Hdir|exact Hex]. }
    destruct (negb (bool_decide (h = [])) && negb (path_exists fs h)) eqn:Hcond.
    + apply condition_absent in Hcond as [Hne Hnone].
      destruct (makedirs h true fs) as [[e|] fs1] eqn:Hrec.
      * destruct (decide (e = FileExistsError)) as [->|He]; [|discriminate].
        destruct (makedirs_new_path _ _ _ _ Hnone Hrec). reflexivity.
      * destruct (decide (t = ".")) as [Heq|_]; [contradiction|].
        apply Hlast. destruct (IH _ _ Hh Hrec) as [Hdir _].
        unfold path_exists. apply bool_decide_eq_true. rewrite Hdir.
        eexists; reflexivity.
    + apply Hlast. apply condition_present, Hcond.
Qed.

(** On a directory whose parent exists, [makedirs] does nothing. *)
Lemma makedirs_again (name : list string) (fs : gmap (list string) Node) :
  node fs name = Some Dir → path_exists fs (tail name) = true → name ≠ [] →
  makedirs name true fs = (None, fs).
Proof.
  intros Hdir Hparent Hne. destruct name as [|t h]; [contradiction|].
  cbn [makedirs]. cbn [tail] in Hparent.
  rewrite Hparent. cbn [negb]. rewrite andb_false_r.
  unfold mkdir_exist_ok, mkdir, isdir. rewrite Hdir. cbn [negb orb].
  rewrite bool_decide_eq_true_2 by exact Hdir. reflexivity.
Qed.

Lemma node_file (fs : gmap (list string) Node) (p : list string) (c : string) :
  node fs p = Some (File c) → fs !! p = Some (File c).
Proof.
  destruct p as [|t [|t' p]]; simpl; [discriminate| |auto].
  destruct (decide (t = "." ∨ t = "..")); [discriminate|auto].
Qed.

(** The last step of [makedirs] succeeds under a directory unless a file is
    in the way. *)
Lemma mkdir_exist_ok_succeeds (name : list string) (fs : gmap (list string) Node) :
  node fs (tail name) = Some Dir → (∀ c, node fs name ≠ Some (File c)) →
  ∃ fs', mkdir_exist_ok true name fs = (None, fs').
Proof.
  intros Hparent Hfile. unfold mkdir_exist_ok, mkdir, isdir.
  destruct (node fs name) as [[|c]|] eqn:Hname.
  - cbn [negb orb]. rewrite Hname, bool_decide_eq_true_2 by reflexivity.
    eexists; reflexivity.
  - destruct (Hfile c). reflexivity.
  - rewrite Hparent. eexists; reflexivity.
Qed.

(** [makedirs] succeeds unless a file is on the way to the path. *)
Lemma makedirs_succeeds (name : list string) (fs : gmap (list string) Node) :
  "."%string ∉ name → name ≠ [] →
  (∀ q c, q `suffix_of` name → node fs q ≠ Some (File c)) →
  ∃ fs', makedirs name true fs = (None, fs').
Proof.
  revert fs. induction name as [|t h IH]; intros fs Hdot Hne Hfiles; [contradiction|].
  assert (Ht : t ≠ "."%string) by (intros ->; apply Hdot; left).
  assert (Hh : "."%string ∉ h) by (intros Hin; apply Hdot; right; exact Hin).
  assert (Hsuf : h `suffix_of` t :: h) by (exists [t]; reflexivity).
  cbn [makedirs].
  destruct (negb (bool_decide (h = [])) && negb (path_exists fs h)) eqn:Hcond.
  - apply condition_absent in Hcond as [Hhne Hnone].
    destruct (IH fs Hh Hhne) as [fs1 Hrec].
    { intros q c Hq. apply Hfiles. etransitivity; eassumption. }
    rewrite Hrec. destruct (decide (t = ".")) as [Heq|_]; [contradiction|].
    destruct (makedirs_done h fs fs1 Hh Hrec) as [Hdir _].
    apply mkdir_exist_ok_succeeds; [exact Hdir|].
    intros c Hc.
    destruct (adds_dirs_node h fs fs1 (t :: h) (makedirs_adds _ _ _ _ Hrec))
      as [Heq|(_ & _ & Hbad)].
    + rewrite Heq in Hc. exact (Hfiles (t :: h) c ltac:(reflexivity) Hc).
    + exact (not_suffix_of_tail t h Hbad).
  - apply condition_present in Hcond.
    apply mkdir_exist_ok_succeeds.
    + cbn [tail]. unfold path_exists in Hcond. apply bool_decide_eq_true in Hcond.
      destruct Hcond as [[|c] Hn]; [exact Hn|].
      destruct (Hfiles h c Hsuf Hn).
    + intros c. apply Hfiles. reflexivity.
Qed.

(** [shutil.copy] into a directory: a new file with the contents of the
    source, or an exception and no change. *)
Lemma copy_into_directory (src dst : list string) (fs fs' : gmap (list string) Node)
    (r : option OSError) :
  node fs dst = Some Dir → node fs (join dst (hd "" src)) = None →
  src ≠ join dst (hd "" src) →
  copy src dst fs = (r, fs') →
  (∃ c, r = None ∧ node fs src = Some (File c)
        ∧ fs' = <[join dst (hd "" src) := File c]> fs)
  ∨ (r ≠ None ∧ fs' = fs ∧ ∀ c, node fs src ≠ Some (File c)).
Proof.
  intros Hdst Hnew Hne. unfold copy, isdir.
  rewrite (bool_decide_eq_true_2 _ Hdst).
  destruct (node fs src) as [[|c]|] eqn:Hsrc.
  - intros [= <- <-]. right. repeat split; discriminate.
  - rewrite decide_False by exact Hne. rewrite Hnew.
    cbn [tail join]. rewrite Hdst.
    intros [= <- <-]. left. exists c. repeat split.
  - intros [= <- <-]. right. repeat split; discriminate.
Qed.

Lemma source_is_not_destination :
  join source_folder file_name ≠ join destination_folder file_name.
Proof. discriminate. Qed.

Lemma file_not_on_the_way (name : string) (folder : list string) :
  ¬ join folder name `suffix_of` folder.
Proof. apply not_suffix_of_tail. Qed.

Lemma source_not_on_the_way :
  ¬ join source_folder file_name `suffix_of` destination_folder.
Proof.
  intros [k Hk]. apply (f_equal length) in Hk as Hlen.
  rewrite length_app in Hlen. destruct k as [|x k]; [discriminate|].
  simpl in Hlen. lia.
Qed.

(** The three ways [setup] ends once the cache directory is made. *)
Lemma setup_after_makedirs (fs fs1 : gmap (list string) Node) :
  makedirs destination_folder true fs = (None, fs1) →
  (setup fs = (None, fs1)
   ∧ (node fs1 (join source_folder file_name) = None
      ∨ is_Some (node fs1 (join destination_folder file_name))))
  ∨ (∃ c, node fs1 (join source_folder file_name) = Some (File c)
          ∧ node fs1 (join destination_folder file_name) = None
          ∧ setup fs = (None, <[join destination_folder file_name := File c]> fs1))
  ∨ (∃ e, node fs1 (join source_folder file_name) = Some Dir
          ∧ node fs1 (join destination_folder file_name) = None
          ∧ setup fs = (Some e, fs1)).
Proof.
  intros Hmk. unfold setup. rewrite Hmk.
  destruct (makedirs_done destination_folder fs fs1) as [Hdir _];
    [apply (bool_decide_unpack _); vm_compute; exact I|exact Hmk|].
  assert (Hexists : ∀ p, path_exists fs1 p = bool_decide (is_Some (node fs1 p)))
    by reflexivity.
  destruct (node fs1 (join source_folder file_name)) as [n|] eqn:Hsrc.
  2:{ rewrite Hexists, Hsrc, bool_decide_eq_false_2 by (intros [? ?]; discriminate).
      left. auto. }
  rewrite Hexists, Hsrc, bool_decide_eq_true_2 by (eexists; reflexivity).
  destruct (node fs1 (join destination_folder file_name)) as [m|] eqn:Hdst.
  { rewrite Hexists, Hdst, bool_decide_eq_true_2 by (eexists; reflexivity).
    left. split; [reflexivity|]. right. eexists; reflexivity. }
  rewrite Hexists, Hdst, bool_decide_eq_false_2 by (intros [? ?]; discriminate).
  cbn [negb].
  destruct (copy (join source_folder file_name) destination_folder fs1)
    as [r fs2] eqn:Hcopy.
  apply copy_into_directory in Hcopy
    as [(c & -> & Hc & ->)|(Hr & -> & Hnofile)];
    [| |exact Hdir|exact Hdst|exact source_is_not_destination].
  - right. left. exists c. rewrite Hsrc in Hc. injection Hc as ->. auto.
  - right. right. destruct r as [e|]; [|contradiction]. exists e.
    destruct n as [|c]; [auto|]. destruct (Hnofile c). exact Hsrc.
Qed.

(** [setup] changes nothing that exists: whatever it does, every file and
    directory that was there is there unchanged afterwards, the model file of
    the checkout and an already cached copy included.  What it adds is
    directories on the way to the cache directory and, in the cache directory,
    a copy of the model file of the checkout. *)
Theorem setup_only_adds (fs : gmap (list string) Node) (q : list string) :
  (setup fs).2 !! q = fs !! q
  ∨ (fs !! q = None
     ∧ (((setup fs).2 !! q = Some Dir ∧ q `suffix_of` destination_folder)
        ∨ (q = join destination_folder file_name
           ∧ ∃ c, (setup fs).2 !! q = Some (File c)
                  ∧ fs !! join source_folder file_name = Some (File c)))).
Proof.
  assert (Hdirs : ∀ fs1, adds_dirs_towards destination_folder fs fs1 →
            fs1 !! q = fs !! q
            ∨ (fs !! q = None ∧ fs1 !! q = Some Dir ∧ q `suffix_of` destination_folder)).
  { intros fs1 Hadd. destruct (Hadd q) as [Heq|(Hnone & Hdir & Hsuf)];
      [left; exact Heq|right]. split; [apply node_absent, Hnone|auto]. }
  destruct (makedirs destination_folder true fs) as [[e|] fs1] eqn:Hmk;
    pose proof (makedirs_adds _ _ _ _ Hmk) as Hadd.
  { unfold setup. rewrite Hmk. simpl.
    destruct (Hdirs fs1 Hadd) as [H|(H1 & H2 & H3)]; [left|right]; auto. }
  destruct (setup_after_makedirs fs fs1 Hmk)
    as [(-> & _)|[(c & Hsrc & Hdst & ->)|(e & _ & _ & ->)]]; simpl.
  - destruct (Hdirs fs1 Hadd) as [H|(H1 & H2 & H3)]; [left|right]; auto.
  - destruct (decide (q = join destination_folder file_name)) as [->|Hne].
    + right. apply node_absent in Hdst. apply node_file in Hsrc.
      assert (Hold : fs !! join destination_folder file_name = None).
      { destruct (Hadd (join destination_folder file_name)) as [Heq|(_ & Hd & _)];
          congruence. }
      split; [exact Hold|]. right. split; [reflexivity|]. exists c.
      split; [apply lookup_insert_eq|].
      destruct (Hadd (join source_folder file_name)) as [Heq|(_ & Hd & _)];
        congruence.
    + rewrite lookup_insert_ne by (intros Heq; apply Hne; symmetry; exact Heq).
      destruct (Hdirs fs1 Hadd) as [H|(H1 & H2 & H3)]; [left|right]; auto.
  - destruct (Hdirs fs1 Hadd) as [H|(H1 & H2 & H3)]; [left|right]; auto.
Qed.

(** A second [setup] after a successful one does nothing and succeeds. *)
Theorem setup_idempotent (fs fs' : gmap (list string) Node) :
  setup fs = (None, fs') → setup fs' = (None, fs').
Proof.
  intros Hsetup.
  destruct (makedirs destination_folder true fs) as [[e|] fs1] eqn:Hmk.
  { unfold setup in Hsetup. rewrite Hmk in Hsetup. discriminate. }
  destruct (makedirs_done destination_folder fs fs1) as [Hdir Hparent];
    [apply (bool_decide_unpack _); vm_compute; exact I|exact Hmk|].
  assert (Hagain : ∀ fs2, node fs2 destination_folder = Some Dir →
            path_exists fs2 (tail destination_folder) = true →
            (node fs2 (join source_folder file_name) = None
             ∨ is_Some (node fs2 (join destination_folder file_name))) →
            setup fs2 = (None, fs2)).
  { intros fs2 Hd Hp Hskip.
    pose proof (makedirs_again destination_folder fs2 Hd Hp ltac:(discriminate)) as Hmk2.
    destruct (setup_after_makedirs fs2 fs2 Hmk2)
      as [(Hs & _)|[(c & Hsrc & Hdst & _)|(e & Hsrc & Hdst & _)]];
      [exact Hs| |]; destruct Hskip as [Hno|[m Hm]]; congruence. }
  destruct (setup_after_makedirs fs fs1 Hmk)
    as [(Hs & Hskip)|[(c & Hsrc & Hdst & Hs)|(e & _ & _ & Hs)]];
    rewrite Hs in Hsetup; try discriminate; injection Hsetup as <-.
  - apply Hagain; assumption.
  - apply Hagain.
    + rewrite node_insert_ne by discriminate. exact Hdir.
    + unfold path_exists in *. apply bool_decide_eq_true.
      apply bool_decide_eq_true in Hparent.
      rewrite node_insert_ne by discriminate. exact Hparent.
    + right. rewrite node_insert_new by exact Hdst. eexists; reflexivity.
Qed.

Lemma setup_idempotent_witness :
  setup fresh_checkout = (None, (setup fresh_checkout).2)
  ∧ setup (setup fresh_checkout).2 = (None, (setup fresh_checkout).2).
Proof.
  assert (H : setup fresh_checkout = (None, (setup fresh_checkout).2))
    by (vm_compute; reflexivity).
  split; [exact H|].
  exact (setup_idempotent fresh_checkout (setup fresh_checkout).2 H).
Defined.

(** After a successful [setup] with the model file in the checkout, the cache
    holds the file: a copy of the one in the checkout when the cache had none,
    and what the cache had otherwise (it is not refreshed). *)
Theorem setup_installs (fs fs' : gmap (list string) Node) (c : string) :
  setup fs = (None, fs') →
  fs !! join source_folder file_name = Some (File c) →
  ∃ n, fs' !! join destination_folder file_name = Some n
       ∧ (fs !! join destination_folder file_name = None → n = File c)
       ∧ (∀ m, fs !! join destination_folder file_name = Some m → n = m).
Proof.
  intros Hsetup Hsrc.
  destruct (makedirs destination_folder true fs) as [[e|] fs1] eqn:Hmk.
  { unfold setup in Hsetup. rewrite Hmk in Hsetup. discriminate. }
  pose proof (makedirs_adds _ _ _ _ Hmk) as Hadd.
  assert (Hsrc1 : node fs1 (join source_folder file_name) = Some (File c)).
  { destruct (node_lookup fs _ _ Hsrc) as [n Hn].
    rewrite (adds_dirs_keeps _ fs fs1 _ n Hadd Hn).
    destruct n as [|c']; [|apply node_file in Hn; congruence].
    exfalso. revert Hn. simpl. rewrite Hsrc. discriminate. }
  assert (Hdst_old : fs1 !! join destination_folder file_name
                     = fs !! join destination_folder file_name).
  { destruct (Hadd (join destination_folder file_name)) as [Heq|(_ & _ & Hsuf)];
      [exact Heq|]. destruct (file_not_on_the_way _ _ Hsuf). }
  destruct (setup_after_makedirs fs fs1 Hmk)
    as [(Hs & Hskip)|[(c' & Hsrc' & Hdst & Hs)|(e & Hdir & _ & Hs)]];
    rewrite Hs in Hsetup; try discriminate; injection Hsetup as <-.
  - destruct Hskip as [Hno|[m Hm]]; [congruence|].
    simpl in Hm. exists m.
    split; [exact Hm|]. rewrite Hdst_old in Hm.
    split; [congruence|]. intros m' Hm'. congruence.
  - rewrite Hsrc1 in Hsrc'. injection Hsrc' as <-.
    exists (File c). split; [apply lookup_insert_eq|]. split; [reflexivity|].
    intros m Hm. apply node_absent in Hdst. congruence.
Qed.

Lemma setup_installs_witness :
  setup fresh_checkout = (None, (setup fresh_checkout).2)
  ∧ fresh_checkout !! join source_folder file_name = Some (File "weights")
  ∧ ∃ n, (setup fresh_checkout).2 !! join destination_folder file_name = Some n
         ∧ (fresh_checkout !! join destination_folder file_name = None
            → n = File "weights")
         ∧ (∀ m, fresh_checkout !! join destination_folder file_name = Some m
                 → n = m).
Proof.
  assert (H1 : setup fresh_checkout = (None, (setup fresh_checkout).2))
    by (vm_compute; reflexivity).
  assert (H2 : fresh_checkout !! join source_folder file_name
               = Some (File "weights")) by (vm_compute; reflexivity).
  split; [exact H1|]. split; [exact H2|].
  exact (setup_installs fresh_checkout (setup fresh_checkout).2 "weights" H1 H2).
Defined.

(** [setup] succeeds whenever no regular file is on the way to the cache
    directory and the model path of the checkout is not a directory. *)
Theorem setup_succeeds (fs : gmap (list string) Node) :
  (∀ q c, q `suffix_of` destination_folder → fs !! q ≠ Some (File c)) →
  fs !! join source_folder file_name ≠ Some Dir →
  (setup fs).1 = None.
Proof.
  intros Hfiles Hsrc.
  destruct (makedirs_succeeds destination_folder fs) as [fs1 Hmk].
  - apply (bool_decide_unpack _). vm_compute. exact I.
  - discriminate.
  - intros q c Hq Hn. apply (Hfiles q c Hq). apply node_file, Hn.
  - destruct (setup_after_makedirs fs fs1 Hmk)
      as [(-> & _)|[(c & _ & _ & ->)|(e & Hdir & _ & _)]]; [reflexivity..|].
    exfalso.
    destruct (adds_dirs_node _ fs fs1 (join source_folder file_name)
                (makedirs_adds _ _ _ _ Hmk)) as [Heq|(_ & _ & Hsuf)].
    + rewrite Heq in Hdir. apply Hsrc. exact Hdir.
    + exact (source_not_on_the_way Hsuf).
Qed.

Lemma setup_succeeds_witness : (setup fresh_checkout).1 = None.
Proof.
  apply (setup_succeeds fresh_checkout).
  - intros q c Hq Hfile. unfold destination_folder in Hq.
    destruct q as [|x q]; [vm_compute in Hfile; discriminate|].
    repeat (apply suffix_cons_inv in Hq as [[= -> ->]|Hq];
            [vm_compute in Hfile; discriminate|]).
    exact (suffix_cons_nil_inv _ _ Hq).
  - vm_compute. discriminate.
Defined.

(** When a regular file sits where the cache directory goes, [setup] raises
    and the cache gets no model file. *)
Theorem setup_blocked_by_file (fs : gmap (list string) Node) (c : string) :
  fs !! destination_folder = Some (File c) →
  (∃ e, (setup fs).1 = Some e)
  ∧ (setup fs).2 !! join destination_folder file_name
    = fs !! join destination_folder file_name.
Proof.
  intros Hfile.
  destruct (makedirs destination_folder true fs) as [[e|] fs1] eqn:Hmk.
  - unfold setup. rewrite Hmk. simpl. split; [exists e; reflexivity|].
    destruct (makedirs_adds _ _ _ _ Hmk (join destination_folder file_name))
      as [Heq|(_ & _ & Hsuf)]; [exact Heq|].
    destruct (file_not_on_the_way _ _ Hsuf).
  - exfalso.
    destruct (makedirs_done destination_folder fs fs1) as [Hdir _];
      [apply (bool_decide_unpack _); vm_compute; exact I|exact Hmk|].
    rewrite (adds_dirs_keeps _ fs fs1 destination_folder (File c)
               (makedirs_adds _ _ _ _ Hmk) Hfile) in Hdir.
    discriminate.
Qed.

Lemma setup_blocked_by_file_witness :
  blocked_checkout !! destination_folder = Some (File "not a directory")
  ∧ (∃ e, (setup blocked_checkout).1 = Some e)
  ∧ (setup blocked_checkout).2 !! join destination_folder file_name
    = blocked_checkout !! join destination_folder file_name.
Proof.
  assert (H : blocked_checkout !! destination_folder
              = Some (File "not a directory")) by (vm_compute; reflexivity).
  split; [exact H|].
  exact (setup_blocked_by_file blocked_checkout "not a directory" H).
Defined.

Example setup_fresh_checkout :
  setup fresh_checkout
  = (None,
     <[join destination_folder file_name := File "weights"]>
       (<[destination_folder := Dir]>
          (<[[".cache"; "root"; ".."] := Dir]>
             (<[["root"; ".."] := Dir]> fresh_checkout)))).
Proof. vm_compute. reflexivity. Qed.

End SetupFacts.
